(** * slackauth: the "Add to Slack" authorization service

    A shallow embedding of [auth.go]: the constructor [New] with its
    template loading, the HTTP callback handler [ServeHTTP], the observer
    slot set by [OnAuth] and the dispatcher goroutine started by [Run],
    which drains the [auths] channel.

    Code outside the repository (the file system, [html/template], the
    Slack client and the application's own state) is gathered in the class
    [World]; the definitions below are parametric in it. *)

From Stdlib Require Import String Ascii List Arith Lia.
From stdpp Require Import list strings.

Local Open Scope string_scope.
Local Open Scope list_scope.

(** ** Values of the Go runtime *)

(** A Go [error]: the service only builds errors with [errors.New] and only
    observes them through [Error()]. *)
Inductive error : Type :=
| errors_New (msg : string).

Definition Error (e : error) : string :=
  match e with errors_New msg => msg end.

(** The result of a library call that returns [(value, error)] with a
    usable value exactly when the error is nil. *)
Inductive res (X : Type) : Type :=
| Ok (x : X)
| Fail (e : error).
Arguments Ok {X} x.
Arguments Fail {X} e.

(** [slack.OAuthResponse]; the handler passes it around behind a pointer,
    which may be nil. *)
Record OAuthResponse : Type := {
  AccessToken : string;
  Scope : string;
  TeamName : string;
  TeamID : string
}.

Definition msg : Type := option OAuthResponse.

(** [http.Request], reduced to its parsed form values. *)
Record Request : Type := {
  Form : list (string * list string)
}.

Fixpoint form_get (f : list (string * list string)) (key : string) : list string :=
  match f with
  | [] => []
  | (k, vs) :: f' => if String.eqb k key then vs else form_get f' key
  end.

(** [r.FormValue(key)]: the first value of [key], the empty string when
    there is none. *)
Definition FormValue (r : Request) (key : string) : string :=
  match form_get (Form r) key with
  | v :: _ => v
  | [] => EmptyString
  end.

(** A record handed to the [log15] root logger. *)
Inductive Lvl : Type := LvlError | LvlWarn | LvlInfo | LvlDebug.

Record logrec : Type := {
  lvl : Lvl;
  text : string;
  ctx : list (string * string)
}.

(** ** The outside world *)

Class World : Type := {
  (** the type of a parsed [*template.Template] *)
  Template : Type;
  (** the application state an observer callback may read and write *)
  AppState : Type;
  (** [ioutil.ReadFile] *)
  ReadFile : string -> res string;
  (** [template.New(name).Parse(text)] *)
  Parse : string -> string -> res Template;
  (** [t.Execute(w, data)]: the bytes written to [w] and the error *)
  Execute : Template -> msg -> string * option error;
  (** [slack.GetOAuthResponse(id, secret, code, redirectURI, debug)] *)
  slack_GetOAuthResponse :
    string -> string -> string -> string -> bool -> msg * option error
}.

(** ** Effects, in program order *)

Inductive effect : Type :=
| EReadFile (file : string)
| EGetOAuthResponse (id secret code : string) (debug : bool)
| ELog (r : logrec)
| EWriteHeader (status : nat)
| EWrite (b : string)
| ESend (v : msg).

(** A computation is the list of effects it performs and its value. *)
Definition Eff (X : Type) : Type := (list effect * X)%type.

Definition ret {X : Type} (x : X) : Eff X := ([], x).

Definition bind {X Y : Type} (m : Eff X) (k : X -> Eff Y) : Eff Y :=
  let (t1, x) := m in
  let (t2, y) := k x in
  (t1 ++ t2, y).

Definition emit (e : effect) : Eff unit := ([e], tt).

Definition trace {X : Type} (m : Eff X) : list effect := fst m.
Definition value {X : Type} (m : Eff X) : X := snd m.

Declare Scope eff_scope.
Delimit Scope eff_scope with eff.
Notation "x <- m ;; k" := (bind m (fun x => k))
  (at level 100, m at next level, right associativity) : eff_scope.
Notation "m ;;; k" := (bind m (fun _ => k))
  (at level 100, right associativity) : eff_scope.
Local Open Scope eff_scope.

Definition log15_Error (m : string) (c : list (string * string)) : Eff unit :=
  emit (ELog {| lvl := LvlError; text := m; ctx := c |}).

Definition log15_Warn (m : string) : Eff unit :=
  emit (ELog {| lvl := LvlWarn; text := m; ctx := [] |}).

(** ** Channels *)

Record chan : Type := {
  buf : list msg;
  cap : nat;
  closed : bool
}.

(** [make(chan *slack.OAuthResponse, n)] *)
Definition make_chan (n : nat) : chan :=
  {| buf := []; cap := n; closed := false |}.

Inductive sendResult : Type :=
| SendOk (c : chan)
| SendBlocks
| SendPanics.

(** [c <- v] on a buffered channel: a send on a closed channel panics, a
    send on a full one blocks. *)
Definition chan_send (c : chan) (v : msg) : sendResult :=
  if closed c then SendPanics
  else if Nat.ltb (List.length (buf c)) (cap c)
       then SendOk {| buf := buf c ++ [v]; cap := cap c; closed := closed c |}
       else SendBlocks.

Inductive recvResult : Type :=
| RecvOk (v : msg) (c : chan)
| RecvBlocks
| RecvClosed.

(** One iteration of [for v := range c]: the oldest buffered value, the end
    of the loop when the channel is closed and drained, otherwise wait. *)
Definition chan_recv (c : chan) : recvResult :=
  match buf c with
  | v :: b => RecvOk v {| buf := b; cap := cap c; closed := closed c |}
  | [] => if closed c then RecvClosed else RecvBlocks
  end.

(** ** The service *)

Record slackAPI : Type := {
  GetOAuthResponse : string -> string -> string -> bool -> msg * option error
}.

Section Service.
Context `{W : World}.

(** [slackAPIWrapper]: the real client, with an empty redirect URI. *)
Definition slackAPIWrapper : slackAPI :=
  {| GetOAuthResponse := fun id secret code debug =>
       slack_GetOAuthResponse id secret code EmptyString debug |}.

(** What a call of the observer does: it returns or it panics, and leaves
    the application state behind. *)
Inductive outcome : Type :=
| Returned (a : AppState)
| Panicked (a : AppState).

Definition handlerFunc : Type := msg -> AppState -> outcome.

Record slackAuth : Type := {
  clientID : string;
  clientSecret : string;
  addr : string;
  certFile : string;
  keyFile : string;
  successTpl : Template;
  errorTpl : Template;
  debug : bool;
  auths : chan;
  callback : option handlerFunc;
  api : slackAPI
}.

Record Options : Type := {
  Addr : string;
  ClientID : string;
  ClientSecret : string;
  SuccessTpl : string;
  ErrorTpl : string;
  Debug : bool;
  CertFile : string;
  KeyFile : string
}.

Definition readTemplate (file : string) : Eff (res Template) :=
  emit (EReadFile file) ;;;
  match ReadFile file with
  | Fail e => ret (Fail e)
  | Ok bytes => ret (Parse EmptyString bytes)
  end.

Definition New (opts : Options) : Eff (option slackAuth * option error) :=
  if String.eqb (Addr opts) EmptyString || String.eqb (ClientID opts) EmptyString
     || String.eqb (ClientSecret opts) EmptyString
  then ret (None, Some (errors_New
         "slackauth: addr, client id and client secret can not be empty"))
  else
    r1 <- readTemplate (SuccessTpl opts) ;;
    match r1 with
    | Fail e => ret (None, Some e)
    | Ok successTpl0 =>
      r2 <- readTemplate (ErrorTpl opts) ;;
      match r2 with
      | Fail e => ret (None, Some e)
      | Ok errorTpl0 =>
        ret (Some {| clientID := ClientID opts;
                     clientSecret := ClientSecret opts;
                     addr := Addr opts;
                     successTpl := successTpl0;
                     errorTpl := errorTpl0;
                     debug := Debug opts;
                     certFile := CertFile opts;
                     keyFile := KeyFile opts;
                     auths := make_chan 1;
                     callback := None;
                     api := slackAPIWrapper |}, None)
      end
    end.

(** [s.callback = fn] *)
Definition OnAuth (s : slackAuth) (fn : option handlerFunc) : slackAuth :=
  {| clientID := clientID s; clientSecret := clientSecret s; addr := addr s;
     certFile := certFile s; keyFile := keyFile s;
     successTpl := successTpl s; errorTpl := errorTpl s; debug := debug s;
     auths := auths s; callback := fn; api := api s |}.

(** The service after a channel operation on [s.auths]. *)
Definition with_auths (s : slackAuth) (c : chan) : slackAuth :=
  {| clientID := clientID s; clientSecret := clientSecret s; addr := addr s;
     certFile := certFile s; keyFile := keyFile s;
     successTpl := successTpl s; errorTpl := errorTpl s; debug := debug s;
     auths := c; callback := callback s; api := api s |}.

(** [tpl.Execute(w, data)]: what was rendered goes to the response writer,
    also when the execution stops with an error. *)
Definition tpl_Execute (t : Template) (data : msg) : Eff (option error) :=
  let (out, err) := Execute t data in
  emit (EWrite out) ;;; ret err.

Definition api_GetOAuthResponse (a : slackAPI) (id secret code : string)
    (dbg : bool) : Eff (msg * option error) :=
  emit (EGetOAuthResponse id secret code dbg) ;;;
  ret (GetOAuthResponse a id secret code dbg).

Definition ServeHTTP (s : slackAuth) (r : Request) : Eff unit :=
  let code := FormValue r "code" in
  p <- api_GetOAuthResponse (api s) (clientID s) (clientSecret s) code (debug s) ;;
  let (resp, err) := (p : msg * option error) in
  match err with
  | Some e =>
    log15_Error "error getting oauth response" [("err", Error e)] ;;;
    err' <- tpl_Execute (errorTpl s) resp ;;
    match err' with
    | Some e' => log15_Error "error displaying error tpl" [("err", Error e')]
    | None => ret tt
    end
  | None =>
    err' <- tpl_Execute (successTpl s) resp ;;
    match err' with
    | Some e' => log15_Error "error displaying success tpl" [("err", Error e')]
    | None => ret tt
    end ;;;
    emit (ESend resp)
  end.

(** ** The response writer of [net/http] *)

(** The status line is fixed by the first [WriteHeader]; a [Write] before
    any [WriteHeader] sends status 200 first, and so does the server when
    the handler returns without having written anything. *)
Record ResponseWriter : Type := {
  status : option nat;
  body : string
}.

Definition newResponse : ResponseWriter := {| status := None; body := EmptyString |}.

Definition WriteHeader (w : ResponseWriter) (c : nat) : ResponseWriter :=
  match status w with
  | None => {| status := Some c; body := body w |}
  | Some _ => w
  end.

Definition Write (w : ResponseWriter) (b : string) : ResponseWriter :=
  let w' := WriteHeader w 200 in
  {| status := status w'; body := String.append (body w') b |}.

Definition finishRequest (w : ResponseWriter) : ResponseWriter :=
  WriteHeader w 200.

(** What the effects of a handler do to its response writer. *)
Definition respond_effect (w : ResponseWriter) (e : effect) : ResponseWriter :=
  match e with
  | EWriteHeader c => WriteHeader w c
  | EWrite b => Write w b
  | _ => w
  end.

(** The response of a handler that ran to its end. *)
Definition respond (t : list effect) : ResponseWriter :=
  finishRequest (fold_left respond_effect t newResponse).

(** The values a computation sends on the channel, the bytes it writes and
    the records it logs, in order. *)
Definition sends (t : list effect) : list msg :=
  omap (fun e => match e with ESend v => Some v | _ => None end) t.

Definition writes (t : list effect) : list string :=
  omap (fun e => match e with EWrite b => Some b | _ => None end) t.

Definition logged (t : list effect) : list logrec :=
  omap (fun e => match e with ELog r => Some r | _ => None end) t.

Definition files_read (t : list effect) : list string :=
  omap (fun e => match e with EReadFile f => Some f | _ => None end) t.

Definition is_provider_call (e : effect) : bool :=
  match e with EGetOAuthResponse _ _ _ _ => true | _ => false end.

Definition sets_status (e : effect) : bool :=
  match e with EWriteHeader _ => true | _ => false end.

(** ** Goroutines and the running service *)

Inductive gstatus : Type := GRunning | GReturned | GPanicked.

(** A goroutine of the HTTP server serving one request: the effects of
    [ServeHTTP] it still has to perform and its response writer. *)
Record goroutine : Type := {
  greq : Request;
  prog : list effect;
  rw : ResponseWriter;
  gst : gstatus
}.

Inductive dstatus : Type := DRunning | DExited | DPanicked.

Inductive fate : Type := Delivered | Dropped.

(** The process once [Run] has been called. [enqueued] and [dispatched]
    are history: which goroutine sent what, and what the dispatcher took
    off the channel, in order. An unrecovered panic of the dispatcher
    goroutine ([DPanicked]) ends the process. *)
Record system : Type := {
  srv : slackAuth;
  reqs : list goroutine;
  app : AppState;
  logs : list logrec;
  disp : dstatus;
  enqueued : list (nat * msg);
  dispatched : list (msg * fate)
}.

Definition delivered (s : system) : list msg :=
  omap (fun p => match snd p with Delivered => Some (fst p) | Dropped => None end)
       (dispatched s).

Definition dropped (s : system) : list msg :=
  omap (fun p => match snd p with Dropped => Some (fst p) | Delivered => None end)
       (dispatched s).

(** [Run]: the dispatcher goroutine is started, then the listener. *)
Definition Run (s : slackAuth) (a : AppState) : system :=
  {| srv := s; reqs := []; app := a; logs := []; disp := DRunning;
     enqueued := []; dispatched := [] |}.

Definition upd_req (s : system) (i : nat) (g : goroutine) : system :=
  {| srv := srv s; reqs := <[i := g]> (reqs s); app := app s; logs := logs s;
     disp := disp s; enqueued := enqueued s; dispatched := dispatched s |}.

(** The server accepts a request and starts a goroutine that calls
    [ServeHTTP]. *)
Definition spawn (s : system) (r : Request) : system :=
  {| srv := srv s;
     reqs := reqs s ++ [ {| greq := r; prog := trace (ServeHTTP (srv s) r);
                            rw := newResponse; gst := GRunning |} ];
     app := app s; logs := logs s; disp := disp s;
     enqueued := enqueued s; dispatched := dispatched s |}.

(** Goroutine [i] performs its next effect. [s.auths <- resp] waits while
    the channel is full. *)
Definition step_handler (s : system) (i : nat) : option system :=
  match reqs s !! i with
  | None => None
  | Some g =>
    match gst g with
    | GRunning =>
      match prog g with
      | [] => Some (upd_req s i {| greq := greq g; prog := [];
                                   rw := finishRequest (rw g); gst := GReturned |})
      | e :: p =>
        let next := fun w' => {| greq := greq g; prog := p; rw := w'; gst := GRunning |} in
        match e with
        | ESend v =>
          match chan_send (auths (srv s)) v with
          | SendOk c =>
            Some {| srv := with_auths (srv s) c;
                    reqs := <[i := next (rw g)]> (reqs s);
                    app := app s; logs := logs s; disp := disp s;
                    enqueued := enqueued s ++ [(i, v)];
                    dispatched := dispatched s |}
          | SendBlocks => None
          | SendPanics =>
            Some (upd_req s i {| greq := greq g; prog := p; rw := rw g;
                                 gst := GPanicked |})
          end
        | ELog r =>
          Some {| srv := srv s; reqs := <[i := next (rw g)]> (reqs s);
                  app := app s; logs := logs s ++ [r]; disp := disp s;
                  enqueued := enqueued s; dispatched := dispatched s |}
        | EWrite _ | EWriteHeader _ =>
          Some (upd_req s i (next (respond_effect (rw g) e)))
        | EReadFile _ | EGetOAuthResponse _ _ _ _ =>
          Some (upd_req s i (next (rw g)))
        end
      end
    | _ => None
    end
  end.

Definition no_handler : logrec :=
  {| lvl := LvlWarn; text := "auth event triggered but there was no handler";
     ctx := [] |}.

(** One iteration of the loop of the dispatcher goroutine in [Run]: the
    check of [s.callback] and the call are one step. An event is
    [Delivered] when the observer was called with it, also when the call
    panics. *)
Definition step_dispatch (s : system) : option system :=
  match disp s with
  | DRunning =>
    match chan_recv (auths (srv s)) with
    | RecvBlocks => None
    | RecvClosed =>
      Some {| srv := srv s; reqs := reqs s; app := app s; logs := logs s;
              disp := DExited; enqueued := enqueued s;
              dispatched := dispatched s |}
    | RecvOk auth c =>
      match callback (srv s) with
      | Some fn =>
        match fn auth (app s) with
        | Returned a =>
          Some {| srv := with_auths (srv s) c; reqs := reqs s; app := a;
                  logs := logs s; disp := DRunning; enqueued := enqueued s;
                  dispatched := dispatched s ++ [(auth, Delivered)] |}
        | Panicked a =>
          Some {| srv := with_auths (srv s) c; reqs := reqs s; app := a;
                  logs := logs s; disp := DPanicked; enqueued := enqueued s;
                  dispatched := dispatched s ++ [(auth, Delivered)] |}
        end
      | None =>
        Some {| srv := with_auths (srv s) c; reqs := reqs s; app := app s;
                logs := logs s ++ [no_handler]; disp := DRunning;
                enqueued := enqueued s;
                dispatched := dispatched s ++ [(auth, Dropped)] |}
      end
    end
  | _ => None
  end.

(** What can happen next in the process. *)
Inductive move : Type :=
| MDispatch
| MHandler (i : nat)
| MRequest (r : Request)
| MOnAuth (fn : option handlerFunc).

Definition crashed (s : system) : bool :=
  match disp s with DPanicked => true | _ => false end.

Definition sched_step (s : system) (m : move) : option system :=
  if crashed s then None
  else match m with
       | MDispatch => step_dispatch s
       | MHandler i => step_handler s i
       | MRequest r => Some (spawn s r)
       | MOnAuth fn =>
         Some {| srv := OnAuth (srv s) fn; reqs := reqs s; app := app s;
                 logs := logs s; disp := disp s; enqueued := enqueued s;
                 dispatched := dispatched s |}
       end.

Fixpoint run (s : system) (ms : list move) : option system :=
  match ms with
  | [] => Some s
  | m :: ms' =>
    match sched_step s m with
    | Some s' => run s' ms'
    | None => None
    end
  end.

(** [exchange s r]: the answer of the provider for the code of [r]. *)
Definition exchange (s : slackAuth) (r : Request) : msg * option error :=
  GetOAuthResponse (api s) (clientID s) (clientSecret s)
                   (FormValue r "code") (debug s).




End Service.

(** ** Vocabulary of the properties *)

Section Vocabulary.
Context `{W : World}.

(** The three fields [New] insists on. *)
Definition required_fields (opts : Options) : Prop :=
  Addr opts <> EmptyString /\ ClientID opts <> EmptyString
  /\ ClientSecret opts <> EmptyString.

(** The template source [file] loads and parses to [t]. *)
Definition loads (file : string) (t : Template) : Prop :=
  exists text, ReadFile file = Ok text /\ Parse EmptyString text = Ok t.

(** The template source [file] fails with [e]: the file cannot be read, or
    its text does not parse. *)
Definition fails (file : string) (e : error) : Prop :=
  ReadFile file = Fail e
  \/ exists text, ReadFile file = Ok text /\ Parse EmptyString text = Fail e.

(** The record [ServeHTTP] logs when a template stops with an error. *)
Definition render_log (what : string) (err : option error) : list logrec :=
  match err with
  | Some e => [ {| lvl := LvlError; text := what; ctx := [("err", Error e)] |} ]
  | None => []
  end.



(** The part of the service that [ServeHTTP] reads: everything but the
    channel's content and the observer slot. *)
Definition same_config (s1 s2 : slackAuth) : Prop :=
  clientID s1 = clientID s2 /\ clientSecret s1 = clientSecret s2
  /\ addr s1 = addr s2 /\ certFile s1 = certFile s2 /\ keyFile s1 = keyFile s2
  /\ successTpl s1 = successTpl s2 /\ errorTpl s1 = errorTpl s2
  /\ debug s1 = debug s2 /\ api s1 = api s2.

(** What goroutine [i] has put on the channel so far. *)
Definition sent_by (i : nat) (enq : list (nat * msg)) : list msg :=
  omap (fun p => if Nat.eqb (fst p) i then Some (snd p) else None) enq.

(** Goroutine [i] is somewhere in [ServeHTTP]: [t] is done, [prog g] is to
    come; its response writer holds what [t] wrote and the history holds
    what [t] sent. *)
Definition goroutine_ok (s : slackAuth) (enq : list (nat * msg))
    (i : nat) (g : goroutine) : Prop :=
  exists t,
    trace (ServeHTTP s (greq g)) = t ++ prog g
    /\ sends t = sent_by i enq
    /\ match gst g with
       | GRunning => rw g = fold_left respond_effect t newResponse
       | GReturned => prog g = [] /\ rw g = respond t
       | GPanicked => False
       end.

(** What holds of the process as long as nobody closes the channel. *)
Record invariant (s : slackAuth) (st : system) : Prop := {
  inv_config : same_config s (srv st);
  inv_open : closed (auths (srv st)) = false;
  inv_cap : cap (auths (srv st)) = cap (auths s);
  inv_fifo :
    map snd (enqueued st) = map fst (dispatched st) ++ buf (auths (srv st));
  inv_range : forall j v, In (j, v) (enqueued st) -> j < List.length (reqs st);
  inv_goroutines :
    forall i g, reqs st !! i = Some g -> goroutine_ok s (enqueued st) i g
}.




(** A request arrives and its goroutine runs on its own until [ServeHTTP]
    returns. *)
Definition serve (st : system) (r : Request) : option system :=
  run st (MRequest r ::
          repeat (MHandler (List.length (reqs st)))
                 (S (List.length (trace (ServeHTTP (srv st) r))))).



End Vocabulary.

(** ** A small world for examples

    The mock client and the templates of the repository's tests, a file
    system with a few files, and a template engine that knows literal text
    and actions of the form [{{.Field}}]. *)

Module Example.

Inductive node : Type :=
| TextNode (s : string)
| FieldNode (name : string).

(** Splits a template text at [{{] and [}}]; an action left open is a
    parse error. *)
Fixpoint scan (inAction : bool) (cur : string) (s : string) : option (list node) :=
  match s with
  | EmptyString => if inAction then None else Some [TextNode cur]
  | String a s1 =>
    match s1 with
    | String b s2 =>
      if negb inAction && Ascii.eqb a "{" && Ascii.eqb b "{"
      then option_map (cons (TextNode cur)) (scan true EmptyString s2)
      else if inAction && Ascii.eqb a "}" && Ascii.eqb b "}"
      then option_map (cons (FieldNode cur)) (scan false EmptyString s2)
      else scan inAction (String.append cur (String a EmptyString)) s1
    | EmptyString => scan inAction (String.append cur (String a EmptyString)) s1
    end
  end.

Definition parse (name text : string) : res (list node) :=
  match scan false EmptyString text with
  | Some ns => Ok ns
  | None => Fail (errors_New (String.append "template: "
                    (String.append name ":1: unclosed action")))
  end.

Fixpoint execute (t : list node) (data : msg) : string * option error :=
  match t with
  | [] => (EmptyString, None)
  | TextNode s :: t' =>
    let (out, err) := execute t' data in (String.append s out, err)
  | FieldNode name :: t' =>
    match data with
    | Some resp =>
      if String.eqb name ".AccessToken"
      then let (out, err) := execute t' data in
           (String.append (AccessToken resp) out, err)
      else (EmptyString, Some (errors_New (String.append "can't evaluate field " name)))
    | None => (EmptyString, Some (errors_New "nil pointer evaluating *slack.OAuthResponse"))
    end
  end.

Definition files : list (string * string) :=
  [ ("valid.txt", "foo");
    ("token.txt", "token={{.AccessToken}}");
    ("a.txt", "<p>{{.AccessToken</p>");
    ("b.txt", "<p>{{.AccessToken</p>") ].

Fixpoint read (fs : list (string * string)) (file : string) : res string :=
  match fs with
  | [] => Fail (errors_New (String.append "open "
                  (String.append file ": no such file or directory")))
  | (f, c) :: fs' => if String.eqb f file then Ok c else read fs' file
  end.

(** [slackAPIMock] of the tests. *)
Definition slackAPIMock : slackAPI :=
  {| GetOAuthResponse := fun id secret code debug =>
       if String.eqb code "invalid"
       then (None, Some (errors_New "invalid code"))
       else (Some {| AccessToken := "foo"; Scope := EmptyString;
                     TeamName := EmptyString; TeamID := EmptyString |}, None) |}.

#[local] Instance world : World :=
  {| Template := list node;
     AppState := nat;
     ReadFile := read files;
     Parse := parse;
     Execute := execute;
     slack_GetOAuthResponse := fun id secret code redirect debug =>
       GetOAuthResponse slackAPIMock id secret code debug |}.

Definition tpl (t : list node) : @Template world := t.

Definition tplSuccess : string := "<h1>Hello</h1>
	<p>All went ok!</p>".

Definition tplError : string := "<h1>:(</h1>
	<p>Something went wrong!</p>".

(** The service of [TestSlackAuth]. *)
Definition auth : @slackAuth world :=
  {| clientID := "aaaa"; clientSecret := "bbbb"; addr := ":8989";
     successTpl := tpl [TextNode tplSuccess];
     errorTpl := tpl [TextNode tplError];
     debug := true; certFile := EmptyString; keyFile := EmptyString;
     auths := make_chan 1; callback := None; api := slackAPIMock |}.

(** The same service with a success page that shows the token. *)
Definition auth_token : @slackAuth world :=
  {| clientID := "aaaa"; clientSecret := "bbbb"; addr := ":8989";
     successTpl := tpl [TextNode "token="; FieldNode ".AccessToken"];
     errorTpl := tpl [TextNode tplError];
     debug := true; certFile := EmptyString; keyFile := EmptyString;
     auths := make_chan 1; callback := None; api := slackAPIMock |}.

Definition getUrlForAuth (code : string) : Request :=
  {| Form := [("code", [code])] |}.

Definition foo : OAuthResponse :=
  {| AccessToken := "foo"; Scope := EmptyString;
     TeamName := EmptyString; TeamID := EmptyString |}.

(** Observers: the counter of the test, one that adds ten, one that
    panics. *)
Definition count_auth : @handlerFunc world := fun _ n => Returned (S n).
Definition add_ten : @handlerFunc world := fun _ n => Returned (n + 10).
Definition panicking : @handlerFunc world := fun _ n => Panicked n.

Definition opts_valid : Options :=
  {| Addr := ":8080"; ClientID := "foo"; ClientSecret := "bar";
     SuccessTpl := "valid.txt"; ErrorTpl := "valid.txt"; Debug := false;
     CertFile := EmptyString; KeyFile := EmptyString |}.

Definition opts_tpl (success failure : string) : Options :=
  {| Addr := ":8080"; ClientID := "foo"; ClientSecret := "bar";
     SuccessTpl := success; ErrorTpl := failure; Debug := false;
     CertFile := EmptyString; KeyFile := EmptyString |}.

Definition opts_no_addr : Options :=
  {| Addr := EmptyString; ClientID := "a"; ClientSecret := "b";
     SuccessTpl := "valid.txt"; ErrorTpl := "valid.txt"; Debug := false;
     CertFile := EmptyString; KeyFile := EmptyString |}.

(** The error of the parser for an action that is not closed, in a
    template without a name. *)
Definition unclosed : error := errors_New "template: :1: unclosed action".

(** A service whose success page refers to a field the response does not
    have: rendering it stops with an error. *)
Definition auth_broken : @slackAuth world :=
  {| clientID := "aaaa"; clientSecret := "bbbb"; addr := ":8989";
     successTpl := tpl [TextNode "<p>"; FieldNode ".Nope"];
     errorTpl := tpl [TextNode tplError];
     debug := true; certFile := EmptyString; keyFile := EmptyString;
     auths := make_chan 1; callback := None; api := slackAPIMock |}.

(** The service [New] makes of [opts_valid]. *)
Definition svc_valid : @slackAuth world :=
  match fst (value (New opts_valid)) with
  | Some s => s
  | None => auth
  end.

(** The service of the test once the test has registered its counter,
    and with an observer that panics. *)
Definition auth_counting : @slackAuth world := OnAuth auth (Some count_auth).
Definition auth_panicking : @slackAuth world := OnAuth auth (Some panicking).

(** The process after the schedule [ms], started with the counter at 0. *)
Definition after (s : @slackAuth world) (ms : list (@move world)) : @system world :=
  match run (Run s 0) ms with
  | Some st => st
  | None => Run s 0
  end.

Definition goroutine_at (st : @system world) (i : nat) : goroutine :=
  nth i (reqs st)
      {| greq := getUrlForAuth EmptyString; prog := []; rw := newResponse;
         gst := GPanicked |}.

(** One good and one bad code, each served to the end. *)
Definition two_requests : list (@move world) :=
  [ MRequest (getUrlForAuth "fooo"); MRequest (getUrlForAuth "invalid");
    MHandler 0; MHandler 0; MHandler 0; MHandler 0;
    MHandler 1; MHandler 1; MHandler 1; MHandler 1 ].

(** A good code served up to and including the send. *)
Definition one_queued : list (@move world) :=
  [ MRequest (getUrlForAuth "fooo"); MHandler 0; MHandler 0; MHandler 0 ].

(** A good code served to the end by [auth_broken]. *)
Definition one_broken : list (@move world) :=
  [ MRequest (getUrlForAuth "fooo");
    MHandler 0; MHandler 0; MHandler 0; MHandler 0; MHandler 0 ].

(** Three good codes at once: the second and the third goroutine have to
    wait for the dispatcher before they can send. *)
Definition three_requests : list (@move world) :=
  [ MRequest (getUrlForAuth "fooo"); MRequest (getUrlForAuth "bar");
    MRequest (getUrlForAuth "baz");
    MHandler 2; MHandler 0; MHandler 1; MHandler 1; MHandler 2; MHandler 0;
    MHandler 1; MDispatch; MHandler 2; MHandler 1; MDispatch; MHandler 0;
    MHandler 2; MDispatch; MHandler 0 ].

(** A certificate without its key. *)
Definition opts_cert_only : Options :=
  {| Addr := ":8080"; ClientID := "foo"; ClientSecret := "bar";
     SuccessTpl := "valid.txt"; ErrorTpl := "valid.txt"; Debug := false;
     CertFile := "cert.pem"; KeyFile := EmptyString |}.

Definition svc_cert_only : @slackAuth world :=
  match fst (value (New opts_cert_only)) with
  | Some s => s
  | None => auth
  end.

(** A request without a code. *)
Definition no_code : Request := {| Form := [] |}.

(** A good code served up to the send, the send not yet done. *)
Definition one_at_send : list (@move world) :=
  [ MRequest (getUrlForAuth "fooo"); MHandler 0; MHandler 0 ].

(** A good code served while nobody listens, and taken by the
    dispatcher. *)
Definition one_dropped : list (@move world) :=
  one_queued ++ [MDispatch].

(** A bad code, the answer of the provider just in. *)
Definition one_failing : list (@move world) :=
  [ MRequest (getUrlForAuth "invalid"); MHandler 0 ].

End Example.


(** ** The listener and the log output *)

Section Lifecycle.
Context `{W : World}.

(** [time.Second], in nanoseconds as [time.Duration] counts. *)
Definition Second : Z := 1000000000%Z.

(** The [http.Server] that [runServer] builds. *)
Record Server : Type := {
  ReadTimeout : Z;
  WriteTimeout : Z;
  ServerAddr : string;
  Handler : slackAuth
}.

(** How the server is started: [ListenAndServe] or [ListenAndServeTLS]
    with its certificate and key files. *)
Inductive listening : Type :=
| ListenAndServe (srv : Server)
| ListenAndServeTLS (srv : Server) (cert key : string).

Definition runServer (s : slackAuth) : listening :=
  let srv := {| ReadTimeout := (1 * Second)%Z;
                WriteTimeout := (3 * Second)%Z;
                ServerAddr := addr s;
                Handler := s |} in
  if negb (String.eqb (certFile s) EmptyString)
     && negb (String.eqb (keyFile s) EmptyString)
  then ListenAndServeTLS srv (certFile s) (keyFile s)
  else ListenAndServe srv.

Definition server_of (l : listening) : Server :=
  match l with
  | ListenAndServe srv => srv
  | ListenAndServeTLS srv _ _ => srv
  end.

(** The levels of [log15] the service knows, as numbers: a smaller number
    is more severe. *)
Definition lvl_num (l : Lvl) : nat :=
  match l with
  | LvlError => 1
  | LvlWarn => 2
  | LvlInfo => 3
  | LvlDebug => 4
  end.

Inductive Format : Type := LogfmtFormat | TerminalFormat.

Section LogOutput.
Variable Writer : Type.
Variable os_Stdout : Writer.

(** [log15.LvlFilterHandler(maxLvl, log15.StreamHandler(w, format))] *)
Record LogHandler : Type := {
  out : Writer;
  format : Format;
  maxLvl : Lvl
}.

(** [SetLogOutput]: a nil writer ([None]) means standard output in the
    terminal format; debug services let debug records through. *)
Definition SetLogOutput (s : slackAuth) (w : option Writer) : LogHandler :=
  let (w', fmt) :=
    match w with
    | None => (os_Stdout, TerminalFormat)
    | Some x => (x, LogfmtFormat)
    end in
  {| out := w'; format := fmt;
     maxLvl := if debug s then LvlDebug else LvlInfo |}.

(** The filter of [LvlFilterHandler]: [r.Lvl <= maxLvl]. *)
Definition passes (h : LogHandler) (r : logrec) : bool :=
  Nat.leb (lvl_num (lvl r)) (lvl_num (maxLvl h)).

(** The records that reach the writer. *)
Definition written (h : LogHandler) (l : list logrec) : list logrec :=
  List.filter (passes h) l.

End LogOutput.

(** The warnings among the records of a log. *)
Definition warnings (l : list logrec) : list logrec :=
  List.filter (fun r => match lvl r with LvlWarn => true | _ => false end) l.

(** The calls of the provider among the effects of a computation. *)
Definition provider_calls (t : list effect) : list effect :=
  List.filter is_provider_call t.

(** A schedule in which the dispatcher takes no step. *)
Definition no_dispatch (m : move) : Prop :=
  match m with MDispatch => False | _ => True end.

End Lifecycle.

(** * Properties *)

Section Construction.
Context `{W : World}.

Lemma readTemplate_trace (file : string) :
  trace (readTemplate file) = [EReadFile file].
Proof.
  unfold readTemplate, trace, bind, emit, ret.
  destruct (ReadFile file); reflexivity.
Qed.

Lemma readTemplate_loads (file : string) (t : Template) :
  loads file t -> readTemplate file = ([EReadFile file], Ok t).
Proof.
  intros (text & Hread & Hparse).
  unfold readTemplate, bind, emit, ret. rewrite Hread, Hparse. reflexivity.
Qed.

Lemma readTemplate_fails (file : string) (e : error) :
  fails file e -> readTemplate file = ([EReadFile file], Fail e).
Proof.
  unfold readTemplate, bind, emit, ret.
  intros [Hread | (text & Hread & Hparse)]; rewrite Hread; [|rewrite Hparse];
    reflexivity.
Qed.

Lemma required_fields_guard (opts : Options) :
  required_fields opts ->
  String.eqb (Addr opts) EmptyString || String.eqb (ClientID opts) EmptyString
  || String.eqb (ClientSecret opts) EmptyString = false.
Proof.
  intros (Ha & Hi & Hs).
  apply String.eqb_neq in Ha, Hi, Hs. rewrite Ha, Hi, Hs. reflexivity.
Qed.

(** C1: when the address, the client id or the client secret is empty,
    [New] returns the configuration error and a nil service, and it has
    read no template file by then. *)
Theorem New_rejects_missing_field (opts : Options) :
  Addr opts = EmptyString \/ ClientID opts = EmptyString
  \/ ClientSecret opts = EmptyString ->
  New opts =
    ([], (None, Some (errors_New
       "slackauth: addr, client id and client secret can not be empty"))).
Proof.
  intros H. unfold New.
  destruct H as [H | [H | H]]; rewrite H; simpl;
    rewrite ?orb_true_r; reflexivity.
Qed.

(** C2, amended: with the three required fields present, [New] returns the
    error of the first template source that fails, unchanged, and a nil
    service; a failing success template ends [New] before the failure
    template is read; with both templates valid it returns a service made
    of them and no error. *)
Theorem New_templates (opts : Options) :
  required_fields opts ->
  (forall e, fails (SuccessTpl opts) e ->
     New opts = ([EReadFile (SuccessTpl opts)], (None, Some e)))
  /\ (forall t e, loads (SuccessTpl opts) t -> fails (ErrorTpl opts) e ->
        New opts = ([EReadFile (SuccessTpl opts); EReadFile (ErrorTpl opts)],
                    (None, Some e)))
  /\ (forall t1 t2, loads (SuccessTpl opts) t1 -> loads (ErrorTpl opts) t2 ->
        exists s,
          New opts = ([EReadFile (SuccessTpl opts); EReadFile (ErrorTpl opts)],
                      (Some s, None))
          /\ successTpl s = t1 /\ errorTpl s = t2).
Proof.
  intros Hreq. apply required_fields_guard in Hreq.
  unfold New, bind, ret. rewrite Hreq. repeat split.
  - intros e He. rewrite (readTemplate_fails _ _ He). reflexivity.
  - intros t e Ht He.
    rewrite (readTemplate_loads _ _ Ht). cbv beta iota.
    rewrite (readTemplate_fails _ _ He). reflexivity.
  - intros t1 t2 H1 H2.
    rewrite (readTemplate_loads _ _ H1). cbv beta iota.
    rewrite (readTemplate_loads _ _ H2). cbv beta iota.
    eexists. split; [reflexivity|]. split; reflexivity.
Qed.

(** C8: a service returned by [New] has a channel of capacity one with
    nothing in it, no observer, and the real client; and all [New] ever
    does is read the two template files: no call to the provider. *)
Theorem New_service (opts : Options) (s : slackAuth) :
  fst (value (New opts)) = Some s ->
  auths s = make_chan 1 /\ cap (auths s) = 1 /\ buf (auths s) = []
  /\ callback s = None /\ api s = slackAPIWrapper
  /\ trace (New opts) = [EReadFile (SuccessTpl opts); EReadFile (ErrorTpl opts)]
  /\ existsb is_provider_call (trace (New opts)) = false.
Proof.
  unfold New.
  destruct (String.eqb (Addr opts) EmptyString || String.eqb (ClientID opts) EmptyString
            || String.eqb (ClientSecret opts) EmptyString); [discriminate|].
  unfold readTemplate, bind, emit, ret, value, trace.
  destruct (ReadFile (SuccessTpl opts)) as [text1|]; [|discriminate].
  destruct (Parse EmptyString text1); [|discriminate].
  destruct (ReadFile (ErrorTpl opts)) as [text2|]; [|discriminate].
  destruct (Parse EmptyString text2); [|discriminate].
  cbn. intros [= <-]. cbn. repeat split; reflexivity.
Qed.

End Construction.

Section Handler.
Context `{W : World}.

(** The effects of [ServeHTTP], spelled out. *)
Lemma ServeHTTP_trace (s : slackAuth) (r : Request) :
  trace (ServeHTTP s r) =
  EGetOAuthResponse (clientID s) (clientSecret s) (FormValue r "code") (debug s) ::
  match snd (exchange s r) with
  | Some e =>
    ELog {| lvl := LvlError; text := "error getting oauth response";
            ctx := [("err", Error e)] |}
    :: EWrite (fst (Execute (errorTpl s) (fst (exchange s r))))
    :: map ELog (render_log "error displaying error tpl"
                   (snd (Execute (errorTpl s) (fst (exchange s r)))))
  | None =>
    EWrite (fst (Execute (successTpl s) (fst (exchange s r))))
    :: map ELog (render_log "error displaying success tpl"
                   (snd (Execute (successTpl s) (fst (exchange s r)))))
    ++ [ESend (fst (exchange s r))]
  end.
Proof.
  unfold ServeHTTP, exchange, api_GetOAuthResponse, tpl_Execute, log15_Error,
    trace, bind, emit, ret.
  destruct (GetOAuthResponse (api s) (clientID s) (clientSecret s)
              (FormValue r "code") (debug s)) as [resp [e|]]; cbn.
  - destruct (Execute (errorTpl s) resp) as [out [e'|]]; reflexivity.
  - destruct (Execute (successTpl s) resp) as [out [e'|]]; reflexivity.
Qed.

End Handler.

Section Process.
Context `{W : World}.

Lemma sends_app (t1 t2 : list effect) : sends (t1 ++ t2) = sends t1 ++ sends t2.
Proof. apply omap_app. Qed.

Lemma sent_by_app (i : nat) (e1 e2 : list (nat * msg)) :
  sent_by i (e1 ++ e2) = sent_by i e1 ++ sent_by i e2.
Proof. apply omap_app. Qed.

Lemma sent_by_none (i : nat) (enq : list (nat * msg)) :
  (forall j v, In (j, v) enq -> j <> i) -> sent_by i enq = [].
Proof.
  induction enq as [|[j v] enq IH]; intros H; [reflexivity|].
  unfold sent_by. cbn.
  destruct (Nat.eqb_spec j i) as [->|_].
  - exfalso. apply (H i v); [left; reflexivity | reflexivity].
  - apply IH. intros j' v' Hin. apply (H j' v'). right. exact Hin.
Qed.

Lemma sent_by_In (i : nat) (v : msg) (enq : list (nat * msg)) :
  In v (sent_by i enq) <-> In (i, v) enq.
Proof.
  induction enq as [|[j u] enq IH]; [reflexivity|].
  unfold sent_by in *. cbn.
  destruct (Nat.eqb_spec j i) as [->|Hne]; cbn; rewrite IH.
  - split; (intros [H|H]; [left; congruence | right; exact H]).
  - split; [intros H; right; exact H | intros [H|H]; [congruence | exact H]].
Qed.


Lemma same_config_refl (s : slackAuth) : same_config s s.
Proof. repeat split. Qed.

Lemma same_config_with_auths (s s' : slackAuth) (c : chan) :
  same_config s s' -> same_config s (with_auths s' c).
Proof. intros H. exact H. Qed.

Lemma same_config_OnAuth (s s' : slackAuth) (fn : option handlerFunc) :
  same_config s s' -> same_config s (OnAuth s' fn).
Proof. intros H. exact H. Qed.

Lemma same_config_exchange (s s' : slackAuth) (r : Request) :
  same_config s s' -> exchange s' r = exchange s r.
Proof.
  intros (H1 & H2 & _ & _ & _ & _ & _ & H8 & H9).
  unfold exchange. rewrite H1, H2, H8, H9. reflexivity.
Qed.

Lemma same_config_ServeHTTP (s s' : slackAuth) (r : Request) :
  same_config s s' -> ServeHTTP s' r = ServeHTTP s r.
Proof.
  intros (H1 & H2 & _ & _ & _ & H6 & H7 & H8 & H9).
  unfold ServeHTTP. rewrite H1, H2, H6, H7, H8, H9. reflexivity.
Qed.

(** A step leaves the configuration of the service alone. *)
Lemma sched_step_config (st st' : system) (m : move) :
  sched_step st m = Some st' -> same_config (srv st) (srv st').
Proof.
  assert (Hdone : forall x : system,
            same_config (srv st) (srv x) -> Some x = Some st' ->
            same_config (srv st) (srv st')).
  { intros x Hx [= <-]. exact Hx. }
  unfold sched_step. destruct (crashed st); [discriminate|].
  destruct m as [|i|r|fn]; [| | apply Hdone; repeat split ..].
  - unfold step_dispatch. destruct (disp st); try discriminate.
    destruct (chan_recv (auths (srv st))) as [v c| |]; try discriminate.
    + destruct (callback (srv st)) as [fn|]; [destruct (fn v (app st))|];
        apply Hdone; repeat split.
    + apply Hdone; repeat split.
  - unfold step_handler. destruct (reqs st !! i) as [g|]; [|discriminate].
    destruct (gst g); try discriminate.
    destruct (prog g) as [|e p]; [apply Hdone; repeat split|].
    destruct e; try (apply Hdone; repeat split).
    destruct (chan_send (auths (srv st)) v); try discriminate;
      apply Hdone; repeat split.
Qed.

Lemma same_config_trans (s1 s2 s3 : slackAuth) :
  same_config s1 s2 -> same_config s2 s3 -> same_config s1 s3.
Proof.
  unfold same_config. intros H1 H2.
  destruct H1 as (?&?&?&?&?&?&?&?&?), H2 as (?&?&?&?&?&?&?&?&?).
  repeat split; congruence.
Qed.

Lemma run_config (ms : list move) (st st' : system) :
  run st ms = Some st' -> same_config (srv st) (srv st').
Proof.
  revert st. induction ms as [|m ms IH]; intros st; cbn.
  - intros [= <-]. apply same_config_refl.
  - destruct (sched_step st m) as [st1|] eqn:Hstep; [|discriminate].
    intros Hrun. eapply same_config_trans.
    + eapply sched_step_config, Hstep.
    + apply IH, Hrun.
Qed.

(** ** The invariant of the running process *)

Lemma invariant_Run (s : slackAuth) (a : AppState) :
  closed (auths s) = false -> buf (auths s) = [] -> invariant s (Run s a).
Proof.
  intros Hopen Hbuf. split; cbn.
  - apply same_config_refl.
  - exact Hopen.
  - reflexivity.
  - rewrite Hbuf. reflexivity.
  - intros j v [].
  - intros i g Hi. destruct i; discriminate Hi.
Qed.

Lemma goroutine_ok_sent (s : slackAuth) (enq enq' : list (nat * msg))
    (i : nat) (g : goroutine) :
  sent_by i enq' = sent_by i enq ->
  goroutine_ok s enq i g -> goroutine_ok s enq' i g.
Proof.
  intros Heq (t & Ht & Hs & Hg). exists t. rewrite Heq. auto.
Qed.

Lemma goroutines_insert (s : slackAuth) (enq enq' : list (nat * msg))
    (l : list goroutine) (i : nat) (g' : goroutine) :
  (forall j g, l !! j = Some g -> goroutine_ok s enq j g) ->
  (forall j, j <> i -> sent_by j enq' = sent_by j enq) ->
  goroutine_ok s enq' i g' ->
  forall j g, <[i:=g']> l !! j = Some g -> goroutine_ok s enq' j g.
Proof.
  intros Hall Hsent Hi j g Hj.
  apply list_lookup_insert_Some in Hj as [(-> & -> & _) | (Hne & Hj)].
  - exact Hi.
  - eapply goroutine_ok_sent; [apply Hsent; congruence | apply Hall, Hj].
Qed.

Lemma sent_by_snoc_other (i j : nat) (v : msg) (enq : list (nat * msg)) :
  j <> i -> sent_by j (enq ++ [(i, v)]) = sent_by j enq.
Proof.
  intros Hne. rewrite sent_by_app. unfold sent_by at 2. cbn.
  assert (Nat.eqb i j = false) as -> by (apply Nat.eqb_neq; congruence).
  apply app_nil_r.
Qed.

Lemma sent_by_snoc_same (i : nat) (v : msg) (enq : list (nat * msg)) :
  sent_by i (enq ++ [(i, v)]) = sent_by i enq ++ [v].
Proof.
  rewrite sent_by_app. unfold sent_by at 2. cbn.
  rewrite Nat.eqb_refl. reflexivity.
Qed.

(** What one more effect does to the bookkeeping of a goroutine. *)
Lemma goroutine_ok_next (s : slackAuth) (enq : list (nat * msg)) (i : nat)
    (g : goroutine) (e : effect) (p : list effect) :
  goroutine_ok s enq i g -> gst g = GRunning -> prog g = e :: p ->
  goroutine_ok s
    (match e with ESend v => enq ++ [(i, v)] | _ => enq end) i
    {| greq := greq g; prog := p; rw := respond_effect (rw g) e; gst := GRunning |}.
Proof.
  intros (t & Ht & Hs & Hg) Hrun Hprog. rewrite Hrun in Hg.
  exists (t ++ [e]). cbn [greq prog rw gst].
  rewrite Ht, Hprog, <- app_assoc. split; [reflexivity|].
  rewrite sends_app, Hs, fold_left_app, Hg. split; [|reflexivity].
  destruct e; cbn [sends omap]; rewrite ?app_nil_r; try reflexivity.
  rewrite sent_by_snoc_same. reflexivity.
Qed.

Lemma goroutine_ok_return (s : slackAuth) (enq : list (nat * msg)) (i : nat)
    (g : goroutine) :
  goroutine_ok s enq i g -> gst g = GRunning -> prog g = [] ->
  goroutine_ok s enq i
    {| greq := greq g; prog := []; rw := finishRequest (rw g); gst := GReturned |}.
Proof.
  intros (t & Ht & Hs & Hg) Hrun Hprog. rewrite Hrun in Hg.
  exists t. cbn [greq prog rw gst]. rewrite Ht, Hprog, Hg.
  repeat split; assumption.
Qed.

Lemma invariant_dispatch (s : slackAuth) (st st' : system) :
  invariant s st -> step_dispatch st = Some st' -> invariant s st'.
Proof.
  intros [Hcfg Hopen Hcap Hfifo Hrange Hgo]. unfold step_dispatch.
  destruct (disp st); try discriminate.
  unfold chan_recv. destruct (buf (auths (srv st))) as [|v b] eqn:Hbuf.
  - rewrite Hopen. discriminate.
  - assert (Hfifo' : forall f : fate,
              map snd (enqueued st) = map fst (dispatched st ++ [(v, f)]) ++ b).
    { intros f. rewrite Hfifo, map_app, <- app_assoc. reflexivity. }
    destruct (callback (srv st)) as [fn|]; [destruct (fn v (app st))|];
      intros [= <-]; split; cbn; auto.
Qed.

Lemma invariant_handler (s : slackAuth) (st st' : system) (i : nat) :
  invariant s st -> step_handler st i = Some st' -> invariant s st'.
Proof.
  intros [Hcfg Hopen Hcap Hfifo Hrange Hgo]. unfold step_handler.
  destruct (reqs st !! i) as [g|] eqn:Hi; [|discriminate].
  pose proof (Hgo i g Hi) as Hg.
  pose proof (lookup_lt_Some _ _ _ Hi) as Hlt.
  destruct (gst g) eqn:Hrun; try discriminate.
  destruct (prog g) as [|e p] eqn:Hprog.
  - intros [= <-]. split; cbn; auto.
    + intros j v Hin. rewrite length_insert. eauto.
    + apply (goroutines_insert s (enqueued st)); auto.
      apply goroutine_ok_return; assumption.
  - pose proof (goroutine_ok_next s _ i g e p Hg Hrun Hprog) as Hnext.
    destruct e as [f|id sec code dbg|r|c|b|v];
      try (intros [= <-]; split; cbn; auto;
           [ intros j v Hin; rewrite length_insert; eauto
           | apply (goroutines_insert s (enqueued st)); auto ]).
    unfold chan_send. rewrite Hopen.
    destruct (Nat.ltb (List.length (buf (auths (srv st)))) (cap (auths (srv st))));
      [|discriminate].
    intros [= <-]. split; cbn; auto.
    + rewrite map_app, Hfifo, <- app_assoc. reflexivity.
    + intros j u Hin. rewrite length_insert.
      apply in_app_or in Hin as [Hin | [[= <- <-] | []]]; eauto.
    + apply (goroutines_insert s (enqueued st)); auto.
      intros j Hne. apply sent_by_snoc_other. exact Hne.
Qed.

Lemma invariant_spawn (s : slackAuth) (st : system) (r : Request) :
  invariant s st -> invariant s (spawn st r).
Proof.
  intros [Hcfg Hopen Hcap Hfifo Hrange Hgo].
  split; cbn [spawn srv reqs enqueued dispatched]; auto.
  - intros j v Hin. rewrite length_app. cbn. apply Hrange in Hin. lia.
  - intros i g Hi. apply lookup_app_Some in Hi as [Hi | (Hge & Hi)].
    + apply Hgo, Hi.
    + destruct (i - List.length (reqs st)) as [|k] eqn:Hk; [|destruct k; discriminate].
      injection Hi as <-. exists []. cbn [greq prog rw gst].
      rewrite (same_config_ServeHTTP s _ r Hcfg). repeat split.
      symmetry. apply sent_by_none. intros j v Hin ->.
      apply Hrange in Hin. lia.
Qed.

(** Every step of the process keeps the invariant. *)
Lemma invariant_step (s : slackAuth) (st st' : system) (m : move) :
  invariant s st -> sched_step st m = Some st' -> invariant s st'.
Proof.
  intros Hinv. unfold sched_step. destruct (crashed st); [discriminate|].
  destruct m as [|i|r|fn].
  - apply invariant_dispatch, Hinv.
  - apply invariant_handler, Hinv.
  - intros [= <-]. apply invariant_spawn, Hinv.
  - intros [= <-]. destruct Hinv. split; cbn; auto.
Qed.

Lemma invariant_run (s : slackAuth) (ms : list move) (st st' : system) :
  invariant s st -> run st ms = Some st' -> invariant s st'.
Proof.
  revert st. induction ms as [|m ms IH]; intros st Hinv; cbn.
  - intros [= <-]. exact Hinv.
  - destruct (sched_step st m) as [st1|] eqn:Hstep; [|discriminate].
    apply IH. eapply invariant_step; eassumption.
Qed.

End Process.

Section Requests.
Context `{W : World}.

(** The template [ServeHTTP] renders for a request and what it renders. *)
Lemma sends_ServeHTTP (s : slackAuth) (r : Request) :
  sends (trace (ServeHTTP s r)) =
  match snd (exchange s r) with
  | Some _ => []
  | None => [fst (exchange s r)]
  end.
Proof.
  rewrite ServeHTTP_trace. destruct (snd (exchange s r)).
  - destruct (snd (Execute (errorTpl s) (fst (exchange s r)))); reflexivity.
  - destruct (snd (Execute (successTpl s) (fst (exchange s r)))); reflexivity.
Qed.

Lemma writes_ServeHTTP (s : slackAuth) (r : Request) :
  writes (trace (ServeHTTP s r)) =
  [fst (Execute match snd (exchange s r) with
                | Some _ => errorTpl s
                | None => successTpl s
                end (fst (exchange s r)))].
Proof.
  rewrite ServeHTTP_trace. destruct (snd (exchange s r)).
  - destruct (snd (Execute (errorTpl s) (fst (exchange s r)))); reflexivity.
  - destruct (snd (Execute (successTpl s) (fst (exchange s r)))); reflexivity.
Qed.

Lemma respond_ServeHTTP (s : slackAuth) (r : Request) :
  respond (trace (ServeHTTP s r)) =
  {| status := Some 200;
     body := fst (Execute match snd (exchange s r) with
                          | Some _ => errorTpl s
                          | None => successTpl s
                          end (fst (exchange s r))) |}.
Proof.
  rewrite ServeHTTP_trace. destruct (snd (exchange s r)).
  - destruct (snd (Execute (errorTpl s) (fst (exchange s r)))); reflexivity.
  - destruct (snd (Execute (successTpl s) (fst (exchange s r)))); reflexivity.
Qed.

Lemma logged_ServeHTTP_success (s : slackAuth) (r : Request) :
  snd (exchange s r) = None ->
  logged (trace (ServeHTTP s r)) =
  render_log "error displaying success tpl"
    (snd (Execute (successTpl s) (fst (exchange s r)))).
Proof.
  intros H. rewrite ServeHTTP_trace, H.
  destruct (snd (Execute (successTpl s) (fst (exchange s r)))); reflexivity.
Qed.

Lemma ServeHTTP_no_WriteHeader (s : slackAuth) (r : Request) :
  existsb sets_status (trace (ServeHTTP s r)) = false.
Proof.
  rewrite ServeHTTP_trace. destruct (snd (exchange s r)).
  - destruct (snd (Execute (errorTpl s) (fst (exchange s r)))); reflexivity.
  - destruct (snd (Execute (successTpl s) (fst (exchange s r)))); reflexivity.
Qed.

Lemma status_fold (t : list effect) (w0 : ResponseWriter) :
  existsb sets_status t = false ->
  (forall c, status w0 = Some c -> c = 200) ->
  forall c, status (fold_left respond_effect t w0) = Some c -> c = 200.
Proof.
  revert w0. induction t as [|e t IH]; intros w0 Hno Hw; [exact Hw|].
  cbn in Hno. apply orb_false_elim in Hno as [He Ht].
  cbn [fold_left]. apply IH; [exact Ht|].
  destruct e; try discriminate; try exact Hw.
  cbn. unfold WriteHeader. intros c. destruct (status w0) eqn:Hs; cbn.
  - rewrite Hs. apply Hw.
  - intros [= <-]. reflexivity.
Qed.

(** Where a goroutine of a running service stands. *)
Lemma handled (s : slackAuth) (a : AppState) (ms : list move) (st : system)
    (i : nat) (g : goroutine) :
  closed (auths s) = false -> buf (auths s) = [] ->
  run (Run s a) ms = Some st -> reqs st !! i = Some g ->
  goroutine_ok s (enqueued st) i g.
Proof.
  intros Hopen Hbuf Hrun Hi.
  eapply inv_goroutines; [|exact Hi].
  eapply invariant_run; [|exact Hrun]. apply invariant_Run; assumption.
Qed.

(** What a goroutine has enqueued so far is the beginning of what
    [ServeHTTP] sends, and all of it once the goroutine has returned; its
    response is then the one [ServeHTTP] makes. *)
Lemma handled_sends (s : slackAuth) (a : AppState) (ms : list move)
    (st : system) (i : nat) (g : goroutine) :
  closed (auths s) = false -> buf (auths s) = [] ->
  run (Run s a) ms = Some st -> reqs st !! i = Some g ->
  exists rest,
    sends (trace (ServeHTTP s (greq g))) = sent_by i (enqueued st) ++ rest
    /\ (gst g = GReturned ->
        rest = [] /\ rw g = respond (trace (ServeHTTP s (greq g)))).
Proof.
  intros Hopen Hbuf Hrun Hi.
  destruct (handled s a ms st i g Hopen Hbuf Hrun Hi) as (t & Ht & Hs & Hg).
  exists (sends (prog g)). split.
  - rewrite Ht, sends_app, Hs. reflexivity.
  - intros Hret. rewrite Hret in Hg. destruct Hg as [Hp Hw].
    rewrite Hp, app_nil_r in Ht. rewrite Hp, Hw, Ht. split; reflexivity.
Qed.

(** C3: of every request the running service handles: when the exchange
    returns an error, [ServeHTTP] sends nothing on the channel, at no
    time has the goroutine enqueued anything, and the body of its finished
    response is the failure template rendered with the response of the
    exchange; when the exchange succeeds, [ServeHTTP] sends exactly the
    response of the exchange, the goroutine has enqueued it once when it
    returns, not more before, and the body is the success template
    rendered with it. *)
Theorem ServeHTTP_exchange (s : slackAuth) (a : AppState) (ms : list move)
    (st : system) (i : nat) (g : goroutine) :
  closed (auths s) = false -> buf (auths s) = [] ->
  run (Run s a) ms = Some st -> reqs st !! i = Some g ->
  let resp := fst (exchange s (greq g)) in
  match snd (exchange s (greq g)) with
  | Some _ =>
    sends (trace (ServeHTTP s (greq g))) = []
    /\ writes (trace (ServeHTTP s (greq g))) = [fst (Execute (errorTpl s) resp)]
    /\ sent_by i (enqueued st) = []
    /\ (gst g = GReturned -> body (rw g) = fst (Execute (errorTpl s) resp))
  | None =>
    sends (trace (ServeHTTP s (greq g))) = [resp]
    /\ writes (trace (ServeHTTP s (greq g))) = [fst (Execute (successTpl s) resp)]
    /\ (sent_by i (enqueued st) = [] \/ sent_by i (enqueued st) = [resp])
    /\ (gst g = GReturned ->
        sent_by i (enqueued st) = [resp]
        /\ body (rw g) = fst (Execute (successTpl s) resp))
  end.
Proof.
  intros Hopen Hbuf Hrun Hi resp.
  destruct (handled_sends s a ms st i g Hopen Hbuf Hrun Hi) as (rest & Hs & Hret).
  pose proof (sends_ServeHTTP s (greq g)) as Hsends.
  pose proof (writes_ServeHTTP s (greq g)) as Hwrites.
  pose proof (respond_ServeHTTP s (greq g)) as Hresp.
  fold resp in Hsends, Hwrites, Hresp.
  destruct (snd (exchange s (greq g))) as [e|].
  - split; [exact Hsends|]. split; [exact Hwrites|].
    rewrite Hs in Hsends.
    apply app_eq_nil in Hsends as [Hsent _]. split; [exact Hsent|].
    intros Hg. destruct (Hret Hg) as [_ ->]. rewrite Hresp. reflexivity.
  - split; [exact Hsends|]. split; [exact Hwrites|].
    rewrite Hs in Hsends. split.
    + destruct (sent_by i (enqueued st)) as [|u [|u' l]]; [left; reflexivity| |].
      * right. cbn in Hsends. congruence.
      * cbn in Hsends. destruct l; discriminate.
    + intros Hg. destruct (Hret Hg) as [-> ->].
      rewrite app_nil_r in Hsends. split; [exact Hsends|].
      rewrite Hresp. reflexivity.
Qed.

(** C7: the response of every request the running service handles has
    status 200 and the rendered template as its body, the failure
    template when the exchange returned an error and the success template
    otherwise; no other status is set while the handler runs. *)
Theorem ServeHTTP_status (s : slackAuth) (a : AppState) (ms : list move)
    (st : system) (i : nat) (g : goroutine) :
  closed (auths s) = false -> buf (auths s) = [] ->
  run (Run s a) ms = Some st -> reqs st !! i = Some g ->
  respond (trace (ServeHTTP s (greq g))) =
    {| status := Some 200;
       body := fst (Execute match snd (exchange s (greq g)) with
                            | Some _ => errorTpl s
                            | None => successTpl s
                            end (fst (exchange s (greq g)))) |}
  /\ (gst g = GReturned -> rw g = respond (trace (ServeHTTP s (greq g))))
  /\ (forall c, status (rw g) = Some c -> c = 200).
Proof.
  intros Hopen Hbuf Hrun Hi.
  destruct (handled s a ms st i g Hopen Hbuf Hrun Hi) as (t & Ht & Hs & Hg).
  split; [apply respond_ServeHTTP|].
  pose proof (ServeHTTP_no_WriteHeader s (greq g)) as Hno.
  rewrite Ht, existsb_app in Hno. apply orb_false_elim in Hno as [Hno _].
  assert (Hfold : forall c,
            status (fold_left respond_effect t newResponse) = Some c -> c = 200).
  { apply status_fold; [exact Hno | discriminate]. }
  split.
  - intros Hret. rewrite Hret in Hg. destruct Hg as [Hp Hw].
    rewrite Hp, app_nil_r in Ht. rewrite Hw, Ht. reflexivity.
  - destruct (gst g); [| |contradiction].
    + rewrite Hg. exact Hfold.
    + destruct Hg as [_ ->]. unfold respond, finishRequest, WriteHeader.
      destruct (status (fold_left respond_effect t newResponse)) eqn:Hst.
      * rewrite Hst. exact Hfold.
      * cbn. intros c [= <-]. reflexivity.
Qed.

(** C10: when the exchange of a request succeeds, its response is sent on
    the channel whether or not the success template renders: an error of
    the template adds a log record and nothing else, and once the
    goroutine has returned its response is in the history of the channel,
    taken by the dispatcher or waiting in the buffer. *)
Theorem render_error_still_enqueues (s : slackAuth) (a : AppState)
    (ms : list move) (st : system) (i : nat) (g : goroutine) (e : error) :
  closed (auths s) = false -> buf (auths s) = [] ->
  run (Run s a) ms = Some st -> reqs st !! i = Some g ->
  snd (exchange s (greq g)) = None ->
  snd (Execute (successTpl s) (fst (exchange s (greq g)))) = Some e ->
  let resp := fst (exchange s (greq g)) in
  sends (trace (ServeHTTP s (greq g))) = [resp]
  /\ logged (trace (ServeHTTP s (greq g))) =
       [ {| lvl := LvlError; text := "error displaying success tpl";
            ctx := [("err", Error e)] |} ]
  /\ (gst g = GReturned ->
        In (i, resp) (enqueued st)
        /\ In resp (map fst (dispatched st) ++ buf (auths (srv st)))).
Proof.
  intros Hopen Hbuf Hrun Hi Hex Herr resp.
  destruct (handled_sends s a ms st i g Hopen Hbuf Hrun Hi) as (rest & Hs & Hret).
  pose proof (sends_ServeHTTP s (greq g)) as Hsends.
  rewrite Hex in Hsends. fold resp in Hsends.
  split; [exact Hsends|]. split.
  - rewrite logged_ServeHTTP_success by exact Hex. rewrite Herr. reflexivity.
  - intros Hg. destruct (Hret Hg) as [-> _].
    rewrite Hs, app_nil_r in Hsends.
    assert (Hin : In (i, resp) (enqueued st)).
    { apply sent_by_In. rewrite Hsends. left. reflexivity. }
    split; [exact Hin|].
    assert (Hinv : invariant s st).
    { eapply invariant_run; [|exact Hrun]. apply invariant_Run; assumption. }
    rewrite <- (inv_fifo s st Hinv).
    change resp with (snd (i, resp)). apply in_map, Hin.
Qed.

End Requests.

Section Dispatcher.
Context `{W : World}.

Lemma delivered_snoc (st : system) (v : msg) (f : fate) :
  omap (fun p : msg * fate =>
          match snd p with Delivered => Some (fst p) | Dropped => None end)
       (dispatched st ++ [(v, f)])
  = delivered st ++ match f with Delivered => [v] | Dropped => [] end.
Proof. rewrite omap_app. destruct f; reflexivity. Qed.

Lemma dropped_snoc (st : system) (v : msg) (f : fate) :
  omap (fun p : msg * fate =>
          match snd p with Dropped => Some (fst p) | Delivered => None end)
       (dispatched st ++ [(v, f)])
  = dropped st ++ match f with Dropped => [v] | Delivered => [] end.
Proof. rewrite omap_app. destruct f; reflexivity. Qed.

(** Nothing runs in a process whose dispatcher has panicked. *)
Lemma crashed_stuck (st : system) (m : move) :
  disp st = DPanicked -> sched_step st m = None.
Proof. intros H. unfold sched_step, crashed. rewrite H. reflexivity. Qed.

(** C4: the dispatcher hands the event it takes off the channel to the
    observer that is in the slot at that moment: with an observer that
    returns, the event is delivered to it; with an empty slot the event
    is dropped and the warning is logged; either way the loop goes on
    with the rest of the channel. An [OnAuth] made while the event waits
    decides who gets it, not the observer in place when it was sent. *)
Theorem dispatch_current_observer (st : system) (v : msg) (b : list msg) :
  crashed st = false -> disp st = DRunning -> buf (auths (srv st)) = v :: b ->
  (forall fn a', callback (srv st) = Some fn -> fn v (app st) = Returned a' ->
     exists st', sched_step st MDispatch = Some st'
       /\ app st' = a' /\ delivered st' = delivered st ++ [v]
       /\ dropped st' = dropped st /\ logs st' = logs st
       /\ disp st' = DRunning /\ buf (auths (srv st')) = b)
  /\ (callback (srv st) = None ->
     exists st', sched_step st MDispatch = Some st'
       /\ app st' = app st /\ delivered st' = delivered st
       /\ dropped st' = dropped st ++ [v] /\ logs st' = logs st ++ [no_handler]
       /\ disp st' = DRunning /\ buf (auths (srv st')) = b)
  /\ (forall fn a', fn v (app st) = Returned a' ->
     exists st', run st [MOnAuth (Some fn); MDispatch] = Some st'
       /\ app st' = a' /\ delivered st' = delivered st ++ [v]
       /\ dropped st' = dropped st)
  /\ (exists st', run st [MOnAuth None; MDispatch] = Some st'
       /\ app st' = app st /\ delivered st' = delivered st
       /\ dropped st' = dropped st ++ [v]).
Proof.
  intros Hlive Hdisp Hbuf. repeat split.
  - intros fn a' Hcb Hfn. unfold sched_step, step_dispatch, chan_recv.
    rewrite Hlive, Hdisp, Hbuf, Hcb, Hfn. eexists. split; [reflexivity|].
    unfold delivered, dropped. cbn [dispatched].
    rewrite delivered_snoc, dropped_snoc, app_nil_r. repeat split.
  - intros Hcb. unfold sched_step, step_dispatch, chan_recv.
    rewrite Hlive, Hdisp, Hbuf, Hcb. eexists. split; [reflexivity|].
    unfold delivered, dropped. cbn [dispatched].
    rewrite delivered_snoc, dropped_snoc, app_nil_r. repeat split.
  - intros fn a' Hfn. cbn [run]. unfold sched_step at 1. rewrite Hlive.
    unfold sched_step, crashed, step_dispatch, chan_recv. cbn.
    rewrite Hdisp, Hbuf, Hfn. eexists. split; [reflexivity|].
    unfold delivered, dropped. cbn [dispatched].
    rewrite delivered_snoc, dropped_snoc, app_nil_r. repeat split.
  - cbn [run]. unfold sched_step at 1. rewrite Hlive.
    unfold sched_step, crashed, step_dispatch, chan_recv. cbn.
    rewrite Hdisp, Hbuf. eexists. split; [reflexivity|].
    unfold delivered, dropped. cbn [dispatched].
    rewrite delivered_snoc, dropped_snoc, app_nil_r. repeat split.
Qed.

(** C5, amended: after an iteration of the dispatcher the loop is still
    running exactly when it took an event and the observer returned, or
    there was no observer; it has ended normally only if the channel is
    closed and empty; and when the observer panics nothing recovers the
    panic: the dispatcher is gone and no goroutine of the process takes
    another step. *)
Theorem dispatcher_loop (st st' : system) :
  sched_step st MDispatch = Some st' ->
  match disp st' with
  | DRunning =>
    exists v, hd_error (buf (auths (srv st))) = Some v
      /\ (callback (srv st) = None
          \/ exists fn a, callback (srv st) = Some fn
                /\ fn v (app st) = Returned a)
  | DExited =>
    closed (auths (srv st)) = true /\ buf (auths (srv st)) = []
  | DPanicked =>
    (exists fn v a, callback (srv st) = Some fn
       /\ hd_error (buf (auths (srv st))) = Some v
       /\ fn v (app st) = Panicked a)
    /\ forall m, sched_step st' m = None
  end.
Proof.
  unfold sched_step at 1. destruct (crashed st); [discriminate|].
  unfold step_dispatch, chan_recv. destruct (disp st); try discriminate.
  destruct (buf (auths (srv st))) as [|v b].
  - destruct (closed (auths (srv st))); [|discriminate].
    intros [= <-]. cbn. split; reflexivity.
  - destruct (callback (srv st)) as [fn|].
    + destruct (fn v (app st)) as [a|a] eqn:Hfn; intros [= <-]; cbn.
      * exists v. split; [reflexivity|]. right. exists fn, a. split; [reflexivity | exact Hfn].
      * split; [exists fn, v, a; repeat split; exact Hfn|].
        intros m. reflexivity.
    + intros [= <-]. cbn. exists v. split; [reflexivity | left; reflexivity].
Qed.

(** ** Many requests at once *)















End Dispatcher.

(** * More of the service *)

Section Lifecycle_properties.
Context `{W : World}.

(** What [New] does, case by case. *)
Lemma New_cases (opts : Options) :
  (exists e, value (New opts) = (None, Some e))
  \/ (exists t1 t2,
        required_fields opts
        /\ value (New opts) =
           (Some {| clientID := ClientID opts;
                    clientSecret := ClientSecret opts;
                    addr := Addr opts;
                    successTpl := t1; errorTpl := t2;
                    debug := Debug opts;
                    certFile := CertFile opts; keyFile := KeyFile opts;
                    auths := make_chan 1; callback := None;
                    api := slackAPIWrapper |}, None)).
Proof.
  unfold New.
  destruct (String.eqb_spec (Addr opts) EmptyString) as [|Ha];
    [left; eexists; reflexivity|].
  destruct (String.eqb_spec (ClientID opts) EmptyString) as [|Hi];
    [left; eexists; reflexivity|].
  destruct (String.eqb_spec (ClientSecret opts) EmptyString) as [|Hs];
    [left; eexists; reflexivity|].
  cbn [orb]. unfold readTemplate, bind, emit, ret, value.
  destruct (ReadFile (SuccessTpl opts)) as [text1|e];
    [|left; eexists; reflexivity].
  destruct (Parse EmptyString text1) as [t1|e]; [|left; eexists; reflexivity].
  destruct (ReadFile (ErrorTpl opts)) as [text2|e];
    [|left; eexists; reflexivity].
  destruct (Parse EmptyString text2) as [t2|e]; [|left; eexists; reflexivity].
  right. exists t1, t2. split; [repeat split; assumption | reflexivity].
Qed.

(** X1: [New] returns a service or an error, never both and never neither;
    a service it returns carries the address, the credentials, the debug
    flag and the certificate and key files of the options, and the three
    required ones are not empty. *)
Theorem New_service_xor_error (opts : Options) :
  (exists e, value (New opts) = (None, Some e))
  \/ (exists s, value (New opts) = (Some s, None)
        /\ clientID s = ClientID opts /\ clientSecret s = ClientSecret opts
        /\ addr s = Addr opts /\ debug s = Debug opts
        /\ certFile s = CertFile opts /\ keyFile s = KeyFile opts
        /\ required_fields opts).
Proof.
  destruct (New_cases opts) as [H | (t1 & t2 & Hreq & H)]; [left; exact H|].
  right. eexists. split; [exact H|]. repeat split; apply Hreq.
Qed.

(** X2: the service [New] makes listens on the address of the options,
    which is not empty, with a read timeout of one second and a write
    timeout of three; it serves TLS exactly when both the certificate file
    and the key file are given, and plain HTTP when either is missing. *)
Theorem runServer_New (opts : Options) (s : slackAuth) :
  fst (value (New opts)) = Some s ->
  server_of (runServer s) =
    {| ReadTimeout := 1000000000%Z; WriteTimeout := 3000000000%Z;
       ServerAddr := Addr opts; Handler := s |}
  /\ Addr opts <> EmptyString
  /\ (CertFile opts <> EmptyString -> KeyFile opts <> EmptyString ->
      runServer s =
      ListenAndServeTLS (server_of (runServer s)) (CertFile opts) (KeyFile opts))
  /\ (CertFile opts = EmptyString \/ KeyFile opts = EmptyString ->
      runServer s = ListenAndServe (server_of (runServer s))).
Proof.
  intros Hs.
  destruct (New_cases opts) as [[e H] | (t1 & t2 & Hreq & H)];
    rewrite H in Hs; [discriminate|].
  injection Hs as <-. unfold runServer. cbn [certFile keyFile addr].
  split.
  - destruct (negb (String.eqb (CertFile opts) EmptyString)
              && negb (String.eqb (KeyFile opts) EmptyString)); reflexivity.
  - split; [apply Hreq|]. split.
    + intros Hc Hk. apply String.eqb_neq in Hc, Hk. rewrite Hc, Hk. reflexivity.
    + intros [Hc | Hk].
      * rewrite Hc. reflexivity.
      * rewrite Hk. cbn. rewrite andb_false_r. reflexivity.
Qed.

(** X3: serving a request calls the provider exactly once, before anything
    else, with the client id, the client secret and the debug flag of the
    service and the code of the request; it reads no file, the templates
    having been loaded by [New]. *)
Theorem ServeHTTP_one_provider_call (s : slackAuth) (r : Request) :
  provider_calls (trace (ServeHTTP s r)) =
    [EGetOAuthResponse (clientID s) (clientSecret s) (FormValue r "code") (debug s)]
  /\ hd_error (trace (ServeHTTP s r)) =
     Some (EGetOAuthResponse (clientID s) (clientSecret s)
                             (FormValue r "code") (debug s))
  /\ files_read (trace (ServeHTTP s r)) = [].
Proof.
  rewrite ServeHTTP_trace. destruct (snd (exchange s r)).
  - destruct (snd (Execute (errorTpl s) (fst (exchange s r))));
      repeat split; reflexivity.
  - destruct (snd (Execute (successTpl s) (fst (exchange s r))));
      repeat split; reflexivity.
Qed.

(** X4: the service [New] makes exchanges the code of a request through
    the real client, with the client id and secret of the options and an
    empty redirect URI; a request without a code is exchanged with the
    empty code. *)
Theorem New_exchange_real_client (opts : Options) (s : slackAuth) (r : Request) :
  fst (value (New opts)) = Some s ->
  exchange s r =
    slack_GetOAuthResponse (ClientID opts) (ClientSecret opts)
                           (FormValue r "code") EmptyString (Debug opts)
  /\ (form_get (Form r) "code" = [] ->
      exchange s r =
        slack_GetOAuthResponse (ClientID opts) (ClientSecret opts)
                               EmptyString EmptyString (Debug opts)).
Proof.
  intros Hs.
  destruct (New_cases opts) as [[e H] | (t1 & t2 & Hreq & H)];
    rewrite H in Hs; [discriminate|].
  injection Hs as <-. split; [reflexivity|].
  intros Hnone. unfold exchange, FormValue. rewrite Hnone. reflexivity.
Qed.

(** X5: with the mock client of the tests in place of the real one, the
    exchange fails exactly for the code [invalid]: that request gets the
    failure template rendered with a nil response and sends nothing;
    every other request gets the success template rendered with the token
    [foo] and sends that response. *)
Theorem mock_exchange (s : slackAuth) (r : Request) :
  api s = Example.slackAPIMock ->
  if String.eqb (FormValue r "code") "invalid"
  then exchange s r = (None, Some (errors_New "invalid code"))
       /\ sends (trace (ServeHTTP s r)) = []
       /\ writes (trace (ServeHTTP s r)) = [fst (Execute (errorTpl s) None)]
  else exchange s r = (Some Example.foo, None)
       /\ sends (trace (ServeHTTP s r)) = [Some Example.foo]
       /\ writes (trace (ServeHTTP s r)) =
          [fst (Execute (successTpl s) (Some Example.foo))].
Proof.
  intros Hapi.
  assert (Hex : exchange s r =
                if String.eqb (FormValue r "code") "invalid"
                then (None, Some (errors_New "invalid code"))
                else (Some Example.foo, None)).
  { unfold exchange. rewrite Hapi. reflexivity. }
  rewrite sends_ServeHTTP, writes_ServeHTTP, Hex.
  destruct (String.eqb (FormValue r "code") "invalid"); repeat split.
Qed.

End Lifecycle_properties.

Section Queue_properties.
Context `{W : World}.

(** All the ways a step can go, one goal each. *)
Ltac step_cases st m :=
  unfold sched_step; destruct (crashed st); [discriminate|];
  destruct m as [|?i|?r|?fn];
  [ unfold step_dispatch; destruct (disp st); try discriminate;
    unfold chan_recv;
    destruct (buf (auths (srv st))) as [|?v ?b] eqn:?Hbuf;
    [ destruct (closed (auths (srv st))) eqn:?Hclosed; try discriminate
    | destruct (callback (srv st)) as [?fn|];
      [ match goal with
        | |- context [match ?f ?x ?y with Returned _ => _ | Panicked _ => _ end] =>
          destruct (f x y)
        end | ] ]
  | unfold step_handler;
    match goal with
    | |- context [reqs st !! ?i] =>
      destruct (reqs st !! i) as [?g|] eqn:?Hi; [|discriminate]
    end;
    match goal with
    | g : goroutine |- _ =>
      destruct (gst g) eqn:?Hgst; try discriminate;
      destruct (prog g) as [|?e ?p] eqn:?Hprog;
      [ | match goal with
          | e : effect |- _ =>
            destruct e as [?f|?id ?sec ?code ?dbg|?r|?c|?b|?v];
            [ | | | | | unfold chan_send;
                        destruct (closed (auths (srv st))) eqn:?Hclosed;
                        [ | destruct (Nat.ltb (List.length (buf (auths (srv st))))
                                              (cap (auths (srv st)))) eqn:?Hroom;
                            [|discriminate] ] ]
          end ]
    end
  | | ];
  intros [= <-].

(** The channel keeps its capacity and never holds more than it. *)
Lemma step_bounded (st st' : system) (m : move) :
  List.length (buf (auths (srv st))) <= cap (auths (srv st)) ->
  sched_step st m = Some st' ->
  cap (auths (srv st')) = cap (auths (srv st))
  /\ List.length (buf (auths (srv st'))) <= cap (auths (srv st')).
Proof.
  intros Hle. step_cases st m; cbn;
    try rewrite Hbuf in Hle; try rewrite Hbuf; cbn in Hle |- *;
    try (split; [reflexivity | lia]).
  split; [reflexivity|]. rewrite length_app. cbn.
  apply Nat.ltb_lt in Hroom. lia.
Qed.

Lemma run_bounded (ms : list move) (st st' : system) :
  List.length (buf (auths (srv st))) <= cap (auths (srv st)) ->
  run st ms = Some st' ->
  cap (auths (srv st')) = cap (auths (srv st))
  /\ List.length (buf (auths (srv st'))) <= cap (auths (srv st')).
Proof.
  revert st. induction ms as [|m ms IH]; intros st Hle; cbn [run].
  - intros [= <-]. split; [reflexivity | exact Hle].
  - destruct (sched_step st m) as [st1|] eqn:Hstep; [|discriminate].
    destruct (step_bounded st st1 m Hle Hstep) as [Hcap Hle1].
    intros Hrun. destruct (IH st1 Hle1 Hrun) as [Hcap' Hle'].
    split; [congruence | exact Hle'].
Qed.

(** X6: however requests, goroutines, the dispatcher and registrations
    interleave, the channel never holds more events than its capacity, and
    its capacity never changes: one event at most for a service made by
    [New]. *)
Theorem queue_bounded (s : slackAuth) (a : AppState) (ms : list move)
    (st : system) :
  List.length (buf (auths s)) <= cap (auths s) ->
  run (Run s a) ms = Some st ->
  cap (auths (srv st)) = cap (auths s)
  /\ List.length (buf (auths (srv st))) <= cap (auths s).
Proof.
  intros Hle Hrun.
  destruct (run_bounded ms (Run s a) st Hle Hrun) as [Hcap Hb].
  cbn [Run srv] in Hcap. split; [exact Hcap|]. rewrite Hcap in Hb. exact Hb.
Qed.

Lemma invariant_reachable (s : slackAuth) (a : AppState) (ms : list move)
    (st : system) :
  closed (auths s) = false -> buf (auths s) = [] ->
  run (Run s a) ms = Some st -> invariant s st.
Proof.
  intros Hopen Hbuf Hrun.
  eapply invariant_run; [|exact Hrun]. apply invariant_Run; assumption.
Qed.


Lemma delivered_dispatched (l : list (msg * fate)) (v : msg) :
  In v (omap (fun p : msg * fate =>
          match snd p with Delivered => Some (fst p) | Dropped => None end) l) ->
  In v (map fst l).
Proof.
  induction l as [|[u f] l IH]; [intros []|].
  destruct f; cbn.
  - intros [H | H]; [left; exact H | right; apply IH, H].
  - intros H. right. apply IH, H.
Qed.


(** X8: only responses of successful exchanges ever enter the channel, and
    so the observer is only ever called with the response of a request
    whose exchange succeeded: a failed exchange never reaches it. *)
Theorem observer_gets_successful_only (s : slackAuth) (a : AppState)
    (ms : list move) (st : system) :
  closed (auths s) = false -> buf (auths s) = [] ->
  run (Run s a) ms = Some st ->
  (forall i v, In (i, v) (enqueued st) ->
     exists g, reqs st !! i = Some g
       /\ snd (exchange s (greq g)) = None
       /\ v = fst (exchange s (greq g)))
  /\ (forall v, In v (delivered st) ->
     exists i g, reqs st !! i = Some g
       /\ snd (exchange s (greq g)) = None
       /\ v = fst (exchange s (greq g))).
Proof.
  intros Hopen Hbuf Hrun.
  pose proof (invariant_reachable s a ms st Hopen Hbuf Hrun) as Hinv.
  assert (Henq : forall i v, In (i, v) (enqueued st) ->
            exists g, reqs st !! i = Some g
              /\ snd (exchange s (greq g)) = None
              /\ v = fst (exchange s (greq g))).
  { intros i v Hin.
    pose proof (inv_range s st Hinv i v Hin) as Hlt.
    destruct (lookup_lt_is_Some_2 _ _ Hlt) as [g Hi].
    exists g. split; [exact Hi|].
    destruct (inv_goroutines s st Hinv i g Hi) as (t & Ht & Hs & _).
    apply sent_by_In in Hin. rewrite <- Hs in Hin.
    assert (Hall : In v (sends (trace (ServeHTTP s (greq g))))).
    { rewrite Ht, sends_app. apply in_or_app. left. exact Hin. }
    rewrite sends_ServeHTTP in Hall.
    destruct (snd (exchange s (greq g))); [destruct Hall|].
    destruct Hall as [<- | []]. split; reflexivity. }
  split; [exact Henq|].
  intros v Hv. apply delivered_dispatched in Hv.
  assert (Hin : In v (map snd (enqueued st))).
  { rewrite (inv_fifo s st Hinv). apply in_or_app. left. exact Hv. }
  apply in_map_iff in Hin as ([i u] & Hu & Hin). cbn in Hu. subst u.
  exists i. apply Henq, Hin.
Qed.

(** A goroutine about to send is at the last statement of [ServeHTTP]:
    its exchange succeeded, it sends the response of the exchange and the
    page is written. *)
Lemma at_send (s : slackAuth) (enq : list (nat * msg)) (i : nat)
    (g : goroutine) (v : msg) (p : list effect) :
  goroutine_ok s enq i g -> gst g = GRunning -> prog g = ESend v :: p ->
  p = [] /\ snd (exchange s (greq g)) = None
  /\ v = fst (exchange s (greq g))
  /\ rw g = {| status := Some 200; body := fst (Execute (successTpl s) v) |}.
Proof.
  intros (t & Ht & _ & Hg) Hrun Hprog. rewrite Hrun in Hg.
  rewrite Hprog, ServeHTTP_trace in Ht.
  destruct (snd (exchange s (greq g))) as [e|].
  - exfalso.
    assert (Hin : In (ESend v)
              (EGetOAuthResponse (clientID s) (clientSecret s)
                 (FormValue (greq g) "code") (debug s)
               :: ELog {| lvl := LvlError; text := "error getting oauth response";
                          ctx := [("err", Error e)] |}
               :: EWrite (fst (Execute (errorTpl s) (fst (exchange s (greq g)))))
               :: map ELog (render_log "error displaying error tpl"
                    (snd (Execute (errorTpl s) (fst (exchange s (greq g)))))))).
    { rewrite Ht. apply in_or_app. right. left. reflexivity. }
    destruct (snd (Execute (errorTpl s) (fst (exchange s (greq g)))));
      cbn in Hin; intuition discriminate.
  - destruct p as [|x p _] using rev_ind.
    + change (EGetOAuthResponse (clientID s) (clientSecret s)
                (FormValue (greq g) "code") (debug s)
              :: EWrite (fst (Execute (successTpl s) (fst (exchange s (greq g)))))
              :: map ELog (render_log "error displaying success tpl"
                   (snd (Execute (successTpl s) (fst (exchange s (greq g))))))
                 ++ [ESend (fst (exchange s (greq g)))])
        with ((EGetOAuthResponse (clientID s) (clientSecret s)
                 (FormValue (greq g) "code") (debug s)
               :: EWrite (fst (Execute (successTpl s) (fst (exchange s (greq g)))))
               :: map ELog (render_log "error displaying success tpl"
                    (snd (Execute (successTpl s) (fst (exchange s (greq g)))))))
              ++ [ESend (fst (exchange s (greq g)))]) in Ht.
      apply app_inj_tail in Ht as [Ht [= Hv]].
      split; [reflexivity|]. split; [reflexivity|]. split; [symmetry; exact Hv|].
      rewrite Hg, <- Ht, <- Hv.
      destruct (snd (Execute (successTpl s) (fst (exchange s (greq g)))));
        reflexivity.
    + exfalso.
      change (t ++ ESend v :: p ++ [x]) with (t ++ (ESend v :: p) ++ [x]) in Ht.
      rewrite app_assoc in Ht.
      change (EGetOAuthResponse (clientID s) (clientSecret s)
                (FormValue (greq g) "code") (debug s)
              :: EWrite (fst (Execute (successTpl s) (fst (exchange s (greq g)))))
              :: map ELog (render_log "error displaying success tpl"
                   (snd (Execute (successTpl s) (fst (exchange s (greq g))))))
                 ++ [ESend (fst (exchange s (greq g)))])
        with ((EGetOAuthResponse (clientID s) (clientSecret s)
                 (FormValue (greq g) "code") (debug s)
               :: EWrite (fst (Execute (successTpl s) (fst (exchange s (greq g)))))
               :: map ELog (render_log "error displaying success tpl"
                    (snd (Execute (successTpl s) (fst (exchange s (greq g)))))))
              ++ [ESend (fst (exchange s (greq g)))]) in Ht.
      apply app_inj_tail in Ht as [Ht _].
      assert (Hin : In (ESend v)
                (EGetOAuthResponse (clientID s) (clientSecret s)
                   (FormValue (greq g) "code") (debug s)
                 :: EWrite (fst (Execute (successTpl s) (fst (exchange s (greq g)))))
                 :: map ELog (render_log "error displaying success tpl"
                      (snd (Execute (successTpl s) (fst (exchange s (greq g)))))))).
      { rewrite Ht. apply in_or_app. right. left. reflexivity. }
      destruct (snd (Execute (successTpl s) (fst (exchange s (greq g)))));
        cbn in Hin; intuition discriminate.
Qed.

(** X9: a goroutine that has reached [s.auths <- resp] has already
    written its page, with status 200; while the channel is full it cannot
    go on, and as soon as there is room the send puts the response of its
    exchange at the end of the channel. *)
Theorem send_waits_for_room (s : slackAuth) (a : AppState) (ms : list move)
    (st : system) (i : nat) (g : goroutine) (v : msg) (p : list effect) :
  closed (auths s) = false -> buf (auths s) = [] ->
  run (Run s a) ms = Some st ->
  reqs st !! i = Some g -> gst g = GRunning -> prog g = ESend v :: p ->
  rw g = {| status := Some 200; body := fst (Execute (successTpl s) v) |}
  /\ v = fst (exchange s (greq g))
  /\ (cap (auths s) <= List.length (buf (auths (srv st))) ->
      sched_step st (MHandler i) = None)
  /\ (List.length (buf (auths (srv st))) < cap (auths s) ->
      crashed st = false ->
      exists st', sched_step st (MHandler i) = Some st'
        /\ buf (auths (srv st')) = buf (auths (srv st)) ++ [v]
        /\ enqueued st' = enqueued st ++ [(i, v)]).
Proof.
  intros Hopen Hbuf Hrun Hi Hgst Hprog.
  pose proof (invariant_reachable s a ms st Hopen Hbuf Hrun) as Hinv.
  destruct (at_send s _ i g v p (inv_goroutines s st Hinv i g Hi) Hgst Hprog)
    as (_ & _ & Hv & Hrw).
  split; [exact Hrw|]. split; [exact Hv|].
  unfold sched_step, step_handler, chan_send.
  rewrite Hi, Hgst, Hprog, (inv_open s st Hinv), (inv_cap s st Hinv). split.
  - intros Hfull. apply Nat.ltb_ge in Hfull. rewrite Hfull.
    destruct (crashed st); reflexivity.
  - intros Hroom Hlive. apply Nat.ltb_lt in Hroom. rewrite Hroom, Hlive.
    eexists. split; [reflexivity|]. split; reflexivity.
Qed.

Lemma step_no_dispatch (st st' : system) (m : move) :
  no_dispatch m -> sched_step st m = Some st' -> dispatched st' = dispatched st.
Proof.
  intros Hm. step_cases st m; try (exfalso; exact Hm); reflexivity.
Qed.

Lemma run_no_dispatch (ms : list move) (st st' : system) :
  Forall no_dispatch ms -> run st ms = Some st' ->
  dispatched st' = dispatched st.
Proof.
  revert st. induction ms as [|m ms IH]; intros st Hms; cbn [run].
  - intros [= <-]. reflexivity.
  - destruct (sched_step st m) as [st1|] eqn:Hstep; [|discriminate].
    inversion Hms as [|? ? Hm Hms']; subst. intros Hrun.
    rewrite (IH st1 Hms' Hrun). eapply step_no_dispatch; eassumption.
Qed.

(** X10: while the dispatcher takes no step, the goroutines together get
    no more events onto the channel than its capacity: all that was sent
    is still waiting there, so with the capacity of one that [New] gives,
    a second successful request cannot finish before the dispatcher has
    taken the first event. *)
Theorem backpressure_without_dispatcher (s : slackAuth) (a : AppState)
    (ms : list move) (st : system) :
  closed (auths s) = false -> buf (auths s) = [] ->
  Forall no_dispatch ms ->
  run (Run s a) ms = Some st ->
  dispatched st = []
  /\ map snd (enqueued st) = buf (auths (srv st))
  /\ List.length (enqueued st) <= cap (auths s).
Proof.
  intros Hopen Hbuf Hms Hrun.
  pose proof (invariant_reachable s a ms st Hopen Hbuf Hrun) as Hinv.
  pose proof (run_no_dispatch ms _ st Hms Hrun) as Hdisp. cbn in Hdisp.
  pose proof (inv_fifo s st Hinv) as Hfifo. rewrite Hdisp in Hfifo. cbn in Hfifo.
  split; [exact Hdisp|]. split; [exact Hfifo|].
  assert (Hle : List.length (buf (auths (srv (Run s a)))) <= cap (auths (srv (Run s a))))
    by (cbn; rewrite Hbuf; cbn; lia).
  destruct (run_bounded ms _ st Hle Hrun) as [Hcap Hb]. cbn in Hcap.
  rewrite <- (length_map snd), Hfifo. lia.
Qed.

(** ** What the service logs *)

Lemma logged_ServeHTTP_error (s : slackAuth) (r : Request) (x : logrec) :
  In (ELog x) (trace (ServeHTTP s r)) -> lvl x = LvlError.
Proof.
  rewrite ServeHTTP_trace. destruct (snd (exchange s r)).
  - destruct (snd (Execute (errorTpl s) (fst (exchange s r))));
      cbn; intros H; repeat destruct H as [H | H];
      try discriminate H; try contradiction; injection H as <-; reflexivity.
  - destruct (snd (Execute (successTpl s) (fst (exchange s r))));
      cbn; intros H; repeat destruct H as [H | H];
      try discriminate H; try contradiction; injection H as <-; reflexivity.
Qed.

(** A step logs nothing, or an error of a handler, or the warning of the
    dispatcher for the event it drops. *)
Lemma step_logs (s : slackAuth) (st st' : system) (m : move) :
  invariant s st -> sched_step st m = Some st' ->
  (logs st' = logs st /\ dropped st' = dropped st)
  \/ (exists x, lvl x = LvlError /\ logs st' = logs st ++ [x]
                /\ dropped st' = dropped st)
  \/ (exists v, logs st' = logs st ++ [no_handler]
                /\ dropped st' = dropped st ++ [v]).
Proof.
  intros Hinv.
  step_cases st m; unfold dropped; cbn [logs dispatched upd_req spawn];
    rewrite ?dropped_snoc, ?app_nil_r;
    try (left; split; reflexivity).
  - right. right. eexists. split; reflexivity.
  - right. left. eexists. split; [|split; reflexivity].
    destruct (inv_goroutines s st Hinv _ _ Hi) as (t & Ht & _).
    apply (logged_ServeHTTP_error s (greq g)).
    rewrite Ht, Hprog. apply in_or_app. right. left. reflexivity.
Qed.

Lemma warnings_snoc (l : list logrec) (x : logrec) :
  warnings (l ++ [x]) =
  warnings l ++ match lvl x with LvlWarn => [x] | _ => [] end.
Proof.
  unfold warnings. rewrite List.filter_app. cbn. destruct (lvl x); reflexivity.
Qed.

Lemma run_logs (s : slackAuth) (ms : list move) (st st' : system) :
  invariant s st -> run st ms = Some st' ->
  warnings (logs st) = map (fun _ => no_handler) (dropped st)
  /\ Forall (fun x => lvl x = LvlError \/ lvl x = LvlWarn) (logs st) ->
  warnings (logs st') = map (fun _ => no_handler) (dropped st')
  /\ Forall (fun x => lvl x = LvlError \/ lvl x = LvlWarn) (logs st').
Proof.
  revert st. induction ms as [|m ms IH]; intros st Hinv; cbn [run].
  - intros [= <-] H. exact H.
  - destruct (sched_step st m) as [st1|] eqn:Hstep; [|discriminate].
    intros Hrun [Hw Hall].
    apply (IH st1 (invariant_step s st st1 m Hinv Hstep) Hrun).
    destruct (step_logs s st st1 m Hinv Hstep)
      as [[-> ->] | [(x & Hx & -> & ->) | (v & -> & ->)]].
    + split; assumption.
    + split.
      * rewrite warnings_snoc, Hx, app_nil_r. exact Hw.
      * apply Forall_app. split; [exact Hall|]. constructor; [left; exact Hx|constructor].
    + split.
      * rewrite warnings_snoc, map_app, Hw. reflexivity.
      * apply Forall_app. split; [exact Hall|].
        constructor; [right; reflexivity|constructor].
Qed.

(** X11: every dropped event leaves one warning in the log and the log
    has no other warning: the warnings of a running service are the
    no-handler warnings of the dispatcher, as many as it dropped events. *)
Theorem warning_per_drop (s : slackAuth) (a : AppState) (ms : list move)
    (st : system) :
  closed (auths s) = false -> buf (auths s) = [] ->
  run (Run s a) ms = Some st ->
  warnings (logs st) = map (fun _ => no_handler) (dropped st)
  /\ List.length (warnings (logs st)) = List.length (dropped st).
Proof.
  intros Hopen Hbuf Hrun.
  destruct (run_logs s ms (Run s a) st (invariant_Run s a Hopen Hbuf) Hrun)
    as [Hw _]; [split; [reflexivity | constructor]|].
  split; [exact Hw|]. rewrite Hw, length_map. reflexivity.
Qed.

(** X12: whatever writer [SetLogOutput] is given and whether the service
    is in debug mode or not, the filter it installs lets through every
    record the running service logs: the errors of the handlers and the
    warnings of the dispatcher are never silenced. A nil writer selects
    standard output in the terminal format, any other writer the logfmt
    format. *)
Theorem SetLogOutput_keeps_service_logs (Writer : Type) (os_Stdout : Writer)
    (w : option Writer) (s : slackAuth) (a : AppState) (ms : list move)
    (st : system) :
  closed (auths s) = false -> buf (auths s) = [] ->
  run (Run s a) ms = Some st ->
  written Writer (SetLogOutput Writer os_Stdout (srv st) w) (logs st) = logs st
  /\ out Writer (SetLogOutput Writer os_Stdout (srv st) w)
     = match w with Some x => x | None => os_Stdout end
  /\ format Writer (SetLogOutput Writer os_Stdout (srv st) w)
     = match w with Some _ => LogfmtFormat | None => TerminalFormat end.
Proof.
  intros Hopen Hbuf Hrun.
  destruct (run_logs s ms (Run s a) st (invariant_Run s a Hopen Hbuf) Hrun)
    as [_ Hall]; [split; [reflexivity | constructor]|].
  split; [|destruct w; split; reflexivity].
  unfold written. induction Hall as [|x l Hx _ IH]; [reflexivity|].
  cbn [List.filter].
  assert (Hpass : passes Writer (SetLogOutput Writer os_Stdout (srv st) w) x = true).
  { unfold passes, SetLogOutput.
    destruct w; cbn [maxLvl]; destruct (debug (srv st));
      destruct Hx as [-> | ->]; reflexivity. }
  rewrite Hpass, IH. reflexivity.
Qed.

(** ** What never happens *)

Lemma step_not_exited (s : slackAuth) (st st' : system) (m : move) :
  invariant s st -> disp st <> DExited -> sched_step st m = Some st' ->
  disp st' <> DExited.
Proof.
  intros Hinv Hd. pose proof (inv_open s st Hinv) as Hopen.
  step_cases st m; cbn [disp upd_req spawn]; try exact Hd; discriminate.
Qed.

Lemma run_not_exited (s : slackAuth) (ms : list move) (st st' : system) :
  invariant s st -> disp st <> DExited -> run st ms = Some st' ->
  disp st' <> DExited.
Proof.
  revert st. induction ms as [|m ms IH]; intros st Hinv Hd; cbn [run].
  - intros [= <-]. exact Hd.
  - destruct (sched_step st m) as [st1|] eqn:Hstep; [|discriminate].
    apply IH.
    + eapply invariant_step; eassumption.
    + eapply step_not_exited; eassumption.
Qed.

(** X13: nothing in the service ever closes the channel. So in a running
    service the channel stays open, the loop of the dispatcher never ends
    normally (it runs, or a panic of the observer has ended it), and no
    handler ever panics on its send. *)
Theorem channel_never_closed (s : slackAuth) (a : AppState) (ms : list move)
    (st : system) :
  closed (auths s) = false -> buf (auths s) = [] ->
  run (Run s a) ms = Some st ->
  closed (auths (srv st)) = false
  /\ (disp st = DRunning \/ disp st = DPanicked)
  /\ forall i g, reqs st !! i = Some g -> gst g = GRunning \/ gst g = GReturned.
Proof.
  intros Hopen Hbuf Hrun.
  pose proof (invariant_reachable s a ms st Hopen Hbuf Hrun) as Hinv.
  split; [apply (inv_open s st Hinv)|]. split.
  - assert (Hd : disp st <> DExited).
    { apply (run_not_exited s ms (Run s a) st (invariant_Run s a Hopen Hbuf));
        [discriminate | exact Hrun]. }
    destruct (disp st); [left; reflexivity | contradiction | right; reflexivity].
  - intros i g Hi. destruct (inv_goroutines s st Hinv i g Hi) as (t & _ & _ & Hg).
    destruct (gst g); [left; reflexivity | right; reflexivity | contradiction].
Qed.

(** X14: a request whose exchange fails never waits for the channel: as
    long as the process lives its goroutine can take its next step,
    however full the channel is and whatever the dispatcher does. *)
Theorem failed_exchange_never_blocks (s : slackAuth) (a : AppState)
    (ms : list move) (st : system) (i : nat) (g : goroutine) (e : error) :
  closed (auths s) = false -> buf (auths s) = [] ->
  run (Run s a) ms = Some st ->
  reqs st !! i = Some g -> snd (exchange s (greq g)) = Some e ->
  gst g = GRunning -> crashed st = false ->
  exists st', sched_step st (MHandler i) = Some st'
    /\ enqueued st' = enqueued st
    /\ buf (auths (srv st')) = buf (auths (srv st)).
Proof.
  intros Hopen Hbuf Hrun Hi Hex Hgst Hlive.
  pose proof (invariant_reachable s a ms st Hopen Hbuf Hrun) as Hinv.
  destruct (inv_goroutines s st Hinv i g Hi) as (t & Ht & _ & _).
  pose proof (sends_ServeHTTP s (greq g)) as Hsends.
  rewrite Hex, Ht, sends_app in Hsends.
  apply app_eq_nil in Hsends as [_ Hsends].
  unfold sched_step, step_handler. rewrite Hlive, Hi, Hgst.
  destruct (prog g) as [|x p]; [eexists; repeat split|].
  destruct x; try (eexists; repeat split).
  discriminate Hsends.
Qed.

End Queue_properties.

(** * The properties on the examples *)

Import Example.

(** The second case of [TestNew]: no address. *)
Lemma New_rejects_missing_field_witness :
  Addr opts_no_addr = EmptyString
  /\ @New world opts_no_addr =
     ([], (None, Some (errors_New
        "slackauth: addr, client id and client secret can not be empty"))).
Proof.
  split; [reflexivity|].
  apply (@New_rejects_missing_field world opts_no_addr).
  left. reflexivity.
Defined.

(** The options of the examples have the three required fields. *)
Lemma required_tpl (success failure : string) :
  required_fields (opts_tpl success failure).
Proof. repeat split; discriminate. Qed.

(** A failure template with an action left open, after a valid success
    template. *)
Lemma New_templates_witness :
  @New world (opts_tpl "valid.txt" "a.txt") =
  ([EReadFile "valid.txt"; EReadFile "a.txt"], (None, Some unclosed)).
Proof.
  refine (proj1 (proj2 (@New_templates world (opts_tpl "valid.txt" "a.txt") _))
                (tpl [TextNode "foo"]) unclosed _ _).
  - repeat split; discriminate.
  - exists "foo". split; reflexivity.
  - right. exists "<p>{{.AccessToken</p>". split; reflexivity.
Defined.

(** C2 as stated does not hold: the error [New] returns for a template
    that does not parse is the parser's, made from the empty template
    name and the text. Two configurations whose offending sources differ
    get the same error, so the error names neither. *)
Lemma New_error_names_no_template :
  @fails world "a.txt" unclosed /\ @fails world "b.txt" unclosed
  /\ value (@New world (opts_tpl "a.txt" "valid.txt")) = (None, Some unclosed)
  /\ value (@New world (opts_tpl "b.txt" "valid.txt")) = (None, Some unclosed)
  /\ ~ (exists name_of : error -> string,
          forall (opts : Options) (e : error),
            required_fields opts ->
            @fails world (SuccessTpl opts) e ->
            value (@New world opts) = (None, Some e) ->
            name_of e = SuccessTpl opts).
Proof.
  assert (Ha : @fails world "a.txt" unclosed)
    by (right; exists "<p>{{.AccessToken</p>"; split; reflexivity).
  assert (Hb : @fails world "b.txt" unclosed)
    by (right; exists "<p>{{.AccessToken</p>"; split; reflexivity).
  repeat split; try assumption; try reflexivity.
  intros [name_of H].
  pose proof (H (opts_tpl "a.txt" "valid.txt") unclosed
                (required_tpl _ _) Ha eq_refl) as H1.
  pose proof (H (opts_tpl "b.txt" "valid.txt") unclosed
                (required_tpl _ _) Hb eq_refl) as H2.
  cbn in H1, H2. rewrite H1 in H2. discriminate H2.
Qed.

(** The service made of two valid templates. *)
Lemma New_service_witness :
  auths svc_valid = make_chan 1 /\ cap (auths svc_valid) = 1
  /\ buf (auths svc_valid) = []
  /\ callback svc_valid = None /\ api svc_valid = @slackAPIWrapper world
  /\ trace (@New world opts_valid) = [EReadFile "valid.txt"; EReadFile "valid.txt"]
  /\ existsb is_provider_call (trace (@New world opts_valid)) = false.
Proof.
  exact (@New_service world opts_valid svc_valid eq_refl).
Defined.

(** The good code of [two_requests]. *)
Lemma ServeHTTP_exchange_witness :
  sends (trace (ServeHTTP auth (getUrlForAuth "fooo"))) = [Some foo]
  /\ writes (trace (ServeHTTP auth (getUrlForAuth "fooo"))) = [tplSuccess]
  /\ (sent_by 0 (enqueued (after auth two_requests)) = []
      \/ sent_by 0 (enqueued (after auth two_requests)) = [Some foo])
  /\ (gst (goroutine_at (after auth two_requests) 0) = GReturned ->
      sent_by 0 (enqueued (after auth two_requests)) = [Some foo]
      /\ body (rw (goroutine_at (after auth two_requests) 0)) = tplSuccess).
Proof.
  assert (Hrun : run (Run auth 0) two_requests = Some (after auth two_requests))
    by (vm_compute; reflexivity).
  assert (Hi : reqs (after auth two_requests) !! 0
               = Some (goroutine_at (after auth two_requests) 0))
    by (vm_compute; reflexivity).
  exact (@ServeHTTP_exchange world auth 0 two_requests (after auth two_requests)
           0 (goroutine_at (after auth two_requests) 0)
           eq_refl eq_refl Hrun Hi).
Defined.

(** The bad code of [two_requests]: status 200 and the failure page. *)
Lemma ServeHTTP_status_witness :
  respond (trace (ServeHTTP auth (getUrlForAuth "invalid"))) =
    {| status := Some 200; body := tplError |}
  /\ (gst (goroutine_at (after auth two_requests) 1) = GReturned ->
      rw (goroutine_at (after auth two_requests) 1)
      = respond (trace (ServeHTTP auth (getUrlForAuth "invalid"))))
  /\ (forall c, status (rw (goroutine_at (after auth two_requests) 1)) = Some c ->
                c = 200).
Proof.
  assert (Hrun : run (Run auth 0) two_requests = Some (after auth two_requests))
    by (vm_compute; reflexivity).
  assert (Hi : reqs (after auth two_requests) !! 1
               = Some (goroutine_at (after auth two_requests) 1))
    by (vm_compute; reflexivity).
  exact (@ServeHTTP_status world auth 0 two_requests (after auth two_requests)
           1 (goroutine_at (after auth two_requests) 1)
           eq_refl eq_refl Hrun Hi).
Defined.

(** The success page of [auth_broken] stops with an error; the response
    is on the channel all the same. *)
Lemma render_error_still_enqueues_witness :
  sends (trace (ServeHTTP auth_broken (getUrlForAuth "fooo"))) = [Some foo]
  /\ logged (trace (ServeHTTP auth_broken (getUrlForAuth "fooo"))) =
       [ {| lvl := LvlError; text := "error displaying success tpl";
            ctx := [("err", "can't evaluate field .Nope")] |} ]
  /\ (gst (goroutine_at (after auth_broken one_broken) 0) = GReturned ->
        In (0, Some foo) (enqueued (after auth_broken one_broken))
        /\ In (Some foo)
              (map fst (dispatched (after auth_broken one_broken))
               ++ buf (auths (srv (after auth_broken one_broken))))).
Proof.
  exact (@render_error_still_enqueues world auth_broken 0 one_broken
           (after auth_broken one_broken) 0
           (goroutine_at (after auth_broken one_broken) 0)
           (errors_New "can't evaluate field .Nope")
           eq_refl eq_refl
           ltac:(vm_compute; reflexivity) ltac:(vm_compute; reflexivity)
           ltac:(vm_compute; reflexivity) ltac:(vm_compute; reflexivity)).
Defined.


(** An event sent while no observer was registered. *)
Lemma dispatch_current_observer_witness :
  (forall fn a', callback (srv (after auth one_queued)) = Some fn ->
     fn (Some foo) (app (after auth one_queued)) = Returned a' ->
     exists st', sched_step (after auth one_queued) MDispatch = Some st'
       /\ app st' = a'
       /\ delivered st' = delivered (after auth one_queued) ++ [Some foo]
       /\ dropped st' = dropped (after auth one_queued)
       /\ logs st' = logs (after auth one_queued)
       /\ disp st' = DRunning /\ buf (auths (srv st')) = [])
  /\ (callback (srv (after auth one_queued)) = None ->
     exists st', sched_step (after auth one_queued) MDispatch = Some st'
       /\ app st' = app (after auth one_queued)
       /\ delivered st' = delivered (after auth one_queued)
       /\ dropped st' = dropped (after auth one_queued) ++ [Some foo]
       /\ logs st' = logs (after auth one_queued) ++ [no_handler]
       /\ disp st' = DRunning /\ buf (auths (srv st')) = [])
  /\ (forall fn a', fn (Some foo) (app (after auth one_queued)) = Returned a' ->
     exists st', run (after auth one_queued) [MOnAuth (Some fn); MDispatch] = Some st'
       /\ app st' = a'
       /\ delivered st' = delivered (after auth one_queued) ++ [Some foo]
       /\ dropped st' = dropped (after auth one_queued))
  /\ (exists st', run (after auth one_queued) [MOnAuth None; MDispatch] = Some st'
       /\ app st' = app (after auth one_queued)
       /\ delivered st' = delivered (after auth one_queued)
       /\ dropped st' = dropped (after auth one_queued) ++ [Some foo]).
Proof.
  exact (@dispatch_current_observer world (after auth one_queued) (Some foo) []
           ltac:(vm_compute; reflexivity) ltac:(vm_compute; reflexivity)
           ltac:(vm_compute; reflexivity)).
Defined.

(** C5 as stated does not hold: an observer that panics ends the
    dispatcher, with the channel still open, and nothing in the process
    takes another step, not even the listener. *)
Lemma panicking_observer_ends_dispatcher :
  run (Run auth_panicking 0) (one_queued ++ [MDispatch])
    = Some (after auth_panicking (one_queued ++ [MDispatch]))
  /\ disp (after auth_panicking (one_queued ++ [MDispatch])) = DPanicked
  /\ closed (auths (srv (after auth_panicking (one_queued ++ [MDispatch])))) = false
  /\ delivered (after auth_panicking (one_queued ++ [MDispatch])) = [Some foo]
  /\ forall m, sched_step (after auth_panicking (one_queued ++ [MDispatch])) m = None.
Proof.
  split; [vm_compute; reflexivity|].
  split; [vm_compute; reflexivity|].
  split; [vm_compute; reflexivity|].
  split; [vm_compute; reflexivity|].
  intros m. apply crashed_stuck. vm_compute. reflexivity.
Qed.

(** The counter of the test takes the event and the loop goes on. *)
Lemma dispatcher_loop_witness :
  exists v,
    hd_error (buf (auths (srv (after auth_counting one_queued)))) = Some v
    /\ (callback (srv (after auth_counting one_queued)) = None
        \/ exists fn a,
             callback (srv (after auth_counting one_queued)) = Some fn
             /\ fn v (app (after auth_counting one_queued)) = Returned a).
Proof.
  exact (@dispatcher_loop world (after auth_counting one_queued)
           (after auth_counting (one_queued ++ [MDispatch]))
           ltac:(vm_compute; reflexivity)).
Defined.


(** ** More of the service, on the examples *)

(** A certificate without a key: plain HTTP. *)
Lemma runServer_New_witness :
  runServer svc_cert_only = ListenAndServe (server_of (runServer svc_cert_only)).
Proof.
  apply (proj2 (proj2 (proj2
           (@runServer_New world opts_cert_only svc_cert_only eq_refl)))).
  right. reflexivity.
Defined.

(** A request without a code is exchanged with the empty code. *)
Lemma New_exchange_real_client_witness :
  exchange svc_valid no_code =
  @slack_GetOAuthResponse world "foo" "bar" EmptyString EmptyString false.
Proof.
  exact (proj2 (@New_exchange_real_client world opts_valid svc_valid no_code eq_refl)
               eq_refl).
Defined.

(** The bad code of the tests. *)
Lemma mock_exchange_witness :
  exchange auth (getUrlForAuth "invalid") = (None, Some (errors_New "invalid code"))
  /\ sends (trace (ServeHTTP auth (getUrlForAuth "invalid"))) = []
  /\ writes (trace (ServeHTTP auth (getUrlForAuth "invalid")))
     = [fst (@Execute world (errorTpl auth) None)].
Proof.
  exact (@mock_exchange world auth (getUrlForAuth "invalid") eq_refl).
Defined.

Lemma queue_bounded_witness :
  cap (auths (srv (after auth two_requests))) = cap (auths auth)
  /\ List.length (buf (auths (srv (after auth two_requests)))) <= cap (auths auth).
Proof.
  exact (@queue_bounded world auth 0 two_requests (after auth two_requests)
           ltac:(vm_compute; repeat constructor)
           ltac:(vm_compute; reflexivity)).
Defined.


Lemma observer_gets_successful_only_witness :
  (forall i v, In (i, v) (enqueued (after auth_counting three_requests)) ->
     exists g, reqs (after auth_counting three_requests) !! i = Some g
       /\ snd (exchange auth_counting (greq g)) = None
       /\ v = fst (exchange auth_counting (greq g)))
  /\ (forall v, In v (delivered (after auth_counting three_requests)) ->
     exists i g, reqs (after auth_counting three_requests) !! i = Some g
       /\ snd (exchange auth_counting (greq g)) = None
       /\ v = fst (exchange auth_counting (greq g))).
Proof.
  exact (@observer_gets_successful_only world auth_counting 0 three_requests
           (after auth_counting three_requests)
           eq_refl eq_refl ltac:(vm_compute; reflexivity)).
Defined.

Lemma send_waits_for_room_witness :
  rw (goroutine_at (after auth one_at_send) 0)
  = {| status := Some 200;
       body := fst (@Execute world (successTpl auth) (Some foo)) |}
  /\ Some foo = fst (exchange auth (greq (goroutine_at (after auth one_at_send) 0)))
  /\ (cap (auths auth) <= List.length (buf (auths (srv (after auth one_at_send)))) ->
      sched_step (after auth one_at_send) (MHandler 0) = None)
  /\ (List.length (buf (auths (srv (after auth one_at_send)))) < cap (auths auth) ->
      crashed (after auth one_at_send) = false ->
      exists st', sched_step (after auth one_at_send) (MHandler 0) = Some st'
        /\ buf (auths (srv st')) = buf (auths (srv (after auth one_at_send))) ++ [Some foo]
        /\ enqueued st' = enqueued (after auth one_at_send) ++ [(0, Some foo)]).
Proof.
  exact (@send_waits_for_room world auth 0 one_at_send (after auth one_at_send)
           0 (goroutine_at (after auth one_at_send) 0) (Some foo) []
           eq_refl eq_refl
           ltac:(vm_compute; reflexivity) ltac:(vm_compute; reflexivity)
           ltac:(vm_compute; reflexivity) ltac:(vm_compute; reflexivity)).
Defined.

Lemma backpressure_without_dispatcher_witness :
  dispatched (after auth one_queued) = []
  /\ map snd (enqueued (after auth one_queued))
     = buf (auths (srv (after auth one_queued)))
  /\ List.length (enqueued (after auth one_queued)) <= cap (auths auth).
Proof.
  exact (@backpressure_without_dispatcher world auth 0 one_queued
           (after auth one_queued) eq_refl eq_refl
           ltac:(repeat constructor) ltac:(vm_compute; reflexivity)).
Defined.

Lemma warning_per_drop_witness :
  warnings (logs (after auth one_dropped))
  = map (fun _ => no_handler) (dropped (after auth one_dropped))
  /\ List.length (warnings (logs (after auth one_dropped)))
     = List.length (dropped (after auth one_dropped)).
Proof.
  exact (@warning_per_drop world auth 0 one_dropped (after auth one_dropped)
           eq_refl eq_refl ltac:(vm_compute; reflexivity)).
Defined.

Lemma SetLogOutput_keeps_service_logs_witness :
  written string (SetLogOutput string "stdout" (srv (after auth two_requests)) None)
          (logs (after auth two_requests))
  = logs (after auth two_requests)
  /\ out string (SetLogOutput string "stdout" (srv (after auth two_requests)) None)
     = "stdout"
  /\ format string (SetLogOutput string "stdout" (srv (after auth two_requests)) None)
     = TerminalFormat.
Proof.
  exact (@SetLogOutput_keeps_service_logs world string "stdout" None auth 0
           two_requests (after auth two_requests)
           eq_refl eq_refl ltac:(vm_compute; reflexivity)).
Defined.

Lemma channel_never_closed_witness :
  closed (auths (srv (after auth_panicking one_dropped))) = false
  /\ (disp (after auth_panicking one_dropped) = DRunning
      \/ disp (after auth_panicking one_dropped) = DPanicked)
  /\ forall i g, reqs (after auth_panicking one_dropped) !! i = Some g ->
       gst g = GRunning \/ gst g = GReturned.
Proof.
  exact (@channel_never_closed world auth_panicking 0 one_dropped
           (after auth_panicking one_dropped)
           eq_refl eq_refl ltac:(vm_compute; reflexivity)).
Defined.

Lemma failed_exchange_never_blocks_witness :
  exists st', sched_step (after auth one_failing) (MHandler 0) = Some st'
    /\ enqueued st' = enqueued (after auth one_failing)
    /\ buf (auths (srv st')) = buf (auths (srv (after auth one_failing))).
Proof.
  exact (@failed_exchange_never_blocks world auth 0 one_failing
           (after auth one_failing) 0 (goroutine_at (after auth one_failing) 0)
           (errors_New "invalid code")
           eq_refl eq_refl
           ltac:(vm_compute; reflexivity) ltac:(vm_compute; reflexivity)
           ltac:(vm_compute; reflexivity) ltac:(vm_compute; reflexivity)
           ltac:(vm_compute; reflexivity)).
Defined.
